(** * Fitbit to Viatom conversion: a shallow embedding of [convert_fitbit.py]

    The development follows the three core functions of the script:
    [align_spo2_data] (session segmentation and the merged table),
    [divide_data_to_viatom_chunks] (forward fill and chunking) and
    [write_to_viatom_file] (the binary layout).

    Conventions.
    - A [datetime] is a number of seconds on the (common, local) time axis,
      a [timedelta] a number of seconds; both are [Z].
    - Python integers are [Z]; a byte is a [Z] in [0, 255].
    - A Python exception is a value of [exn]; a function that may raise
      returns a [result].
    - The dictionary [data] is a [gmap] from instants to the two slots
      [[SpO2, heart rate]], each [None] or an integer. *)

From stdpp Require Import gmap list sorting strings.
From Equations Require Import Equations.

Local Open Scope Z_scope.

(** ** Exceptions and results *)

Inductive exn : Set :=
| FileNotFoundError   (* "No SpO2 ... detected!" *)
| RuntimeError        (* "Data chunk ... too long" *)
| UnboundLocalError   (* a local variable read before its first assignment *)
| IndexError          (* list index out of range *)
| StructError.        (* struct.error: number out of range for the format *)

Inductive result (A : Type) : Type :=
| Ok (a : A)
| Raise (e : exn).
Arguments Ok {A} a.
Arguments Raise {A} e.

Definition bind {A B : Type} (m : result A) (k : A → result B) : result B :=
  match m with
  | Ok a => k a
  | Raise e => Raise e
  end.

Notation "'let*' x ':=' m 'in' k" := (bind m (λ x, k))
  (at level 10, x pattern, m at level 100, k at level 200).

#[global] Instance exn_eq_dec : EqDecision exn.
Proof. solve_decision. Defined.

(** Reading a local variable that may not have been assigned yet. *)
Definition read_local {A : Type} (v : option A) : result A :=
  match v with
  | Some x => Ok x
  | None => Raise UnboundLocalError
  end.

(** [l[i]] on a Python list. *)
Definition index {A : Type} (l : list A) (i : nat) : result A :=
  match l !! i with
  | Some x => Ok x
  | None => Raise IndexError
  end.

(** Monadic left fold: a [for] loop whose body may raise. *)
Fixpoint for_each {S X : Type} (body : S → X → result S) (xs : list X) (s : S)
  : result S :=
  match xs with
  | [] => Ok s
  | x :: xs' => let* s' := body s x in for_each body xs' s'
  end.

(** ** Data model *)

(** One entry of the merged table: the slots [[SpO2, heart rate]]. *)
Definition slots : Type := option Z * option Z.

(** An item of [data.items()]. *)
Definition entry : Type := Z * slots.

(** A synthesized record [(timestamp, spo2, bpm)]. *)
Definition record : Type := Z * Z * Z.

Definition rec_time (r : record) : Z := r.1.1.
Definition rec_spo2 (r : record) : Z := r.1.2.
Definition rec_bpm (r : record) : Z := r.2.

(** A sample as yielded by [read_csv] or [read_json]. *)
Definition sample : Type := Z * Z.

(** [data[timestamp][0] = value] on the [defaultdict]. *)
Definition set_spo2 (timestamp value : Z) (data : gmap Z slots) : gmap Z slots :=
  <[timestamp := (Some value, (default (None, None) (data !! timestamp)).2)]> data.

(** [data[timestamp][1] = value] on the [defaultdict]. *)
Definition set_bpm (timestamp value : Z) (data : gmap Z slots) : gmap Z slots :=
  <[timestamp := ((default (None, None) (data !! timestamp)).1, Some value)]> data.

(** ** [align_spo2_data] *)

Module Align.

(** [timedelta(minutes=5)], in seconds. *)
Definition five_minutes : Z := 300.

(** The local state of the first loop: the list [sessions] (each session the
    Python list [[start]] or [[start, end]]), the table, and the variable
    [prev_timestamp], unassigned before the first sample. *)
Record spo2_state : Type := Spo2State {
  sessions : list (list Z);
  data : gmap Z slots;
  prev_timestamp : option Z
}.

(** [sessions[-1].append(x)]. *)
Definition append_to_last (x : Z) (ss : list (list Z)) : list (list Z) :=
  alter (λ s, s ++ [x]) (pred (length ss)) ss.

(** Body of the loop over the saturation samples (lines 129-138).  In the
    [else] branch the variable [prev_timestamp] is first overwritten with
    [sessions[-1][0]]; the last line of the body assigns it the sample's own
    timestamp. *)
Definition spo2_step (st : spo2_state) (smp : sample) : result spo2_state :=
  let '(timestamp, value) := smp in
  let* sessions' :=
    match last (sessions st) with
    | None => Ok (sessions st ++ [[timestamp]])
    | Some current =>
        let* prev_timestamp := index current 0 in
        if decide (timestamp - prev_timestamp > five_minutes)
        then Ok (append_to_last prev_timestamp (sessions st) ++ [[timestamp]])
        else Ok (sessions st)
    end in
  Ok {| sessions := sessions';
        data := set_spo2 timestamp value (data st);
        prev_timestamp := Some timestamp |}.

(** The local state of the second loop. *)
Record bpm_state : Type := BpmState {
  bpm_data : gmap Z slots;
  last_bpm_timestamp : option Z
}.

(** Body of the loop over the heart-rate samples (lines 146-147). *)
Definition bpm_step (st : bpm_state) (smp : sample) : result bpm_state :=
  let '(timestamp, value) := smp in
  Ok {| bpm_data := set_bpm timestamp value (bpm_data st);
        last_bpm_timestamp := Some timestamp |}.

(** The post-filter (lines 150-153): [session[1] < last_bpm_timestamp]. *)
Definition filter_step (last_bpm : Z) (acc : list (list Z)) (session : list Z)
  : result (list (list Z)) :=
  let* session_end := index session 1 in
  if decide (session_end < last_bpm) then Ok (acc ++ [session]) else Ok acc.

(** The sessions that the post-filter keeps. *)
Definition covered (last_bpm : Z) (session : list Z) : Prop :=
  match session !! 1%nat with
  | Some session_end => session_end < last_bpm
  | None => False
  end.

#[global] Instance covered_dec (last_bpm : Z) (session : list Z) :
  Decision (covered last_bpm session).
Proof. unfold covered. destruct (session !! 1%nat); apply _. Defined.

(** [align_spo2_data], on the streams that [read_csv] and [read_json] yield
    for each file. *)
Definition align_spo2_data (csv_files json_files : list (list sample))
  : result (list (list Z) * gmap Z slots) :=
  let* st := for_each (λ st file, for_each spo2_step file st) csv_files
               {| sessions := []; data := ∅; prev_timestamp := None |} in
  if decide (length (sessions st) = 0%nat) then Raise FileNotFoundError else
  let* last_session := index (sessions st) (pred (length (sessions st))) in
  let* ss :=
    if decide (length last_session = 1%nat)
    then let* prev := read_local (prev_timestamp st) in
         Ok (append_to_last prev (sessions st))
    else Ok (sessions st) in
  let* bst := for_each (λ st file, for_each bpm_step file st) json_files
                {| bpm_data := data st; last_bpm_timestamp := None |} in
  match last_bpm_timestamp bst with
  | None => Raise FileNotFoundError
  | Some last_bpm =>
      let* filtered_sessions := for_each (filter_step last_bpm) ss [] in
      Ok (filtered_sessions, bpm_data bst)
  end.

(** The segmentation of section 4.1 of the specification, written from its
    words: a session is opened at the first sample; a sample more than five
    minutes after the previous sample closes the open session at that previous
    sample and opens a new one; the last open session is closed at the last
    sample seen.  [reference_from start prev rest] has an open session begun
    at [start] whose latest sample is [prev]. *)
Fixpoint reference_from (start prev : Z) (rest : list Z) : list (list Z) :=
  match rest with
  | [] => [[start; prev]]
  | t :: rest' =>
      if decide (t - prev > five_minutes)
      then [start; prev] :: reference_from t t rest'
      else reference_from start t rest'
  end.

Definition reference_sessions (timestamps : list Z) : list (list Z) :=
  match timestamps with
  | [] => []
  | t :: rest => reference_from t t rest
  end.

End Align.

(** ** [divide_data_to_viatom_chunks] *)

Module Chunks.

(** The chunk capacity and the record spacing (seconds). *)
Definition max_records : Z := 4095.
Definition spacing : Z := 4.

(** [sorted(data.items())]: the items in ascending order of their keys (the
    keys of a dictionary are distinct, so the values are never compared). *)
Definition entry_le (a b : entry) : Prop := a.1 ≤ b.1.

#[global] Instance entry_le_dec : RelDecision entry_le.
Proof. intros a b. unfold entry_le. apply _. Defined.

Definition sorted_items (data : gmap Z slots) : list entry :=
  merge_sort entry_le (map_to_list data).

(** The variables of the function that live across the loops: the list
    [chunks], the open [chunk], and the running values [spo2] and [bpm], which
    are unassigned until a table entry supplies them. *)
Record gen_state : Type := GenState {
  chunks : list (list record);
  chunk : list record;
  spo2 : option Z;
  bpm : option Z
}.

Definition initial : gen_state :=
  {| chunks := []; chunk := []; spo2 := None; bpm := None |}.

(** [chunks.append(chunk); chunk = []]. *)
Definition flush (st : gen_state) : gen_state :=
  {| chunks := chunks st ++ [chunk st]; chunk := [];
     spo2 := spo2 st; bpm := bpm st |}.

(** Body of the [while] loop without the increment (lines 178-181). *)
Definition append_record (st : gen_state) (timestamp : Z) : result gen_state :=
  let st1 :=
    if decide (max_records ≤ Z.of_nat (length (chunk st))) then flush st else st in
  let* s := read_local (spo2 st1) in
  let* b := read_local (bpm st1) in
  Ok {| chunks := chunks st1; chunk := chunk st1 ++ [(timestamp, s, b)];
        spo2 := spo2 st1; bpm := bpm st1 |}.

(** The [while timestamp < end_timestamp] loop (lines 177-183); it returns the
    state and the final value of [timestamp]. *)
Equations? emit (st : gen_state) (timestamp end_timestamp : Z)
  : result (gen_state * Z)
  by wf (Z.to_nat (end_timestamp - timestamp)) lt :=
  emit st timestamp end_timestamp with decide (timestamp < end_timestamp) := {
    | left _ with append_record st timestamp := {
        | Ok st' => emit st' (timestamp + spacing) end_timestamp
        | Raise e => Raise e };
    | right _ => Ok (st, timestamp) }.
Proof. unfold spacing. lia. Qed.

(** The assignments [if values[k] is not None: ... = values[k]]. *)
Definition carry (running new : option Z) : option Z :=
  match new with
  | Some v => Some v
  | None => running
  end.

Definition observe (values : slots) (st : gen_state) : gen_state :=
  {| chunks := chunks st; chunk := chunk st;
     spo2 := carry (spo2 st) values.1; bpm := carry (bpm st) values.2 |}.

(** Body of the loop over [i] (lines 164-184) for [cur = sorted_data[i]] and
    [next = sorted_data[i + 1]]; the second component of the state is
    [last_timestamp].  [continue] leaves [last_timestamp] as it was. *)
Definition pair_step (session : list Z) (cur next : entry)
    (s : gen_state * option Z) : result (gen_state * option Z) :=
  let '(st, last_timestamp) := s in
  let timestamp := match last_timestamp with None => cur.1 | Some t => t end in
  let end_timestamp := next.1 in
  let st := observe cur.2 st in
  let* session_start := index session 0 in
  if decide (timestamp < session_start) then Ok (st, last_timestamp) else
  let* session_end := index session 1 in
  if decide (timestamp > session_end) then Ok (st, last_timestamp) else
  let* out := emit st timestamp end_timestamp in
  Ok (out.1, Some out.2).

(** Body of the loop over [i], with the two entries read by their index. *)
Definition index_step (session : list Z) (sorted_data : list entry)
    (s : gen_state * option Z) (i : nat) : result (gen_state * option Z) :=
  let* cur := index sorted_data i in
  let* next := index sorted_data (i + 1) in
  pair_step session cur next s.

(** The loop [for i in range(len(sorted_data) - 1)]. *)
Definition walk (session : list Z) (sorted_data : list entry)
    (s : gen_state * option Z) : result (gen_state * option Z) :=
  for_each (index_step session sorted_data) (seq 0 (length sorted_data - 1)) s.

(** [if chunk: chunks.append(chunk); chunk = []]. *)
Definition flush_if_open (st : gen_state) : gen_state :=
  match chunk st with
  | [] => st
  | _ :: _ => flush st
  end.

(** Body of the loop over the sessions (lines 162-187). *)
Definition session_pass (sorted_data : list entry) (st : gen_state)
    (session : list Z) : result gen_state :=
  let* out := walk session sorted_data (st, None) in
  Ok (flush_if_open out.1).

Definition divide_data_to_viatom_chunks (sessions : list (list Z))
    (data : gmap Z slots) : result (list (list record)) :=
  let sorted_data := sorted_items data in
  let* st := for_each (session_pass sorted_data) sessions initial in
  Ok (chunks (flush_if_open st)).

(** *** Vocabulary for the properties of the generator *)

(** The loop over [i] as a recursion over the adjacent pairs of the list; it
    is the same function as [walk] (lemma [walk_pairs_eq]). *)
Fixpoint walk_pairs (session : list Z) (sorted_data : list entry)
    (s : gen_state * option Z) : result (gen_state * option Z) :=
  match sorted_data with
  | cur :: rest =>
      match rest with
      | next :: _ =>
          let* s' := pair_step session cur next s in walk_pairs session rest s'
      | [] => Ok s
      end
  | [] => Ok s
  end.

(** The value of a running variable after the entries [es] have been
    observed, starting from [r0]. *)
Definition running (field : slots → option Z) (r0 : option Z) (es : list entry)
  : option Z :=
  foldl (λ r e, carry r (field e.2)) r0 es.

(** [n] instants, [spacing] seconds apart, from [t] on. *)
Fixpoint stamps (n : nat) (t : Z) : list Z :=
  match n with
  | O => []
  | S n' => t :: stamps n' (t + spacing)
  end.

Definition full (c : list record) : Prop := Z.of_nat (length c) = max_records.

(** The chunk state while a session is processed: [base] holds the chunks of
    the sessions before it, [rs] are the records of this session so far.  They
    fill whole chunks in order; the open chunk is empty only if the session
    has no record yet. *)
Definition shape (base : list (list record)) (st : gen_state) (rs : list record)
  : Prop :=
  ∃ K, chunks st = base ++ K ∧ Forall full K ∧
       Z.of_nat (length (chunk st)) ≤ max_records ∧
       (chunk st = [] → K = []) ∧
       concat K ++ chunk st = rs.

(** The chunks [K] of one session, whose records are [rs]: no chunk is empty
    or longer than [max_records], and all but the last are full. *)
Definition session_chunks (K : list (list record)) (rs : list record) : Prop :=
  concat K = rs ∧
  ∀ (i : nat) c, K !! i = Some c →
    1 ≤ Z.of_nat (length c) ≤ max_records ∧
    ((S i < length K)%nat → full c).

(** Record [r] was emitted for the session from [s] to [e] while the walk over
    [l] stood at the adjacent entries [cur], [next]: its instant lies in the
    half-open interval between them, and its values are the running values
    after [cur] was observed. *)
Definition emitted (s e : Z) (l : list entry) (sp0 bp0 : option Z) (r : record)
  : Prop :=
  ∃ l1 cur next l2,
    l = l1 ++ cur :: next :: l2 ∧
    cur.1 ≤ rec_time r < next.1 ∧ s ≤ rec_time r ∧ cur.1 ≤ e ∧
    running fst sp0 (l1 ++ [cur]) = Some (rec_spo2 r) ∧
    running snd bp0 (l1 ++ [cur]) = Some (rec_bpm r).

(** The strict order of the instants of two entries. *)
Definition entry_lt (a b : entry) : Prop := a.1 < b.1.

(** Two instants of the table with no instant of the table between them. *)
Definition adjacent (data : gmap Z slots) (t t' : Z) : Prop :=
  is_Some (data !! t) ∧ is_Some (data !! t') ∧ t < t' ∧
  ∀ k, is_Some (data !! k) → ¬ (t < k < t').

(** An entry whose instant is not within the session. *)
Definition outside (s e : Z) (c : entry) : Prop := c.1 < s ∨ e < c.1.

(** [t0] is the key of the first entry of [l], other than its last, that
    lies within the session. *)
Definition first_inside (s e : Z) (l : list entry) (t0 : Z) : Prop :=
  ∃ l1 cur l2,
    l = l1 ++ cur :: l2 ∧ l2 ≠ [] ∧ cur.1 = t0 ∧ s ≤ t0 ≤ e ∧
    Forall (outside s e) l1.

(** The invariant of [last_timestamp] when the walk has [l] left to visit. *)
Definition last_ok (s e : Z) (l : list entry) (last_timestamp : option Z) : Prop :=
  match last_timestamp with
  | None => True
  | Some x => s ≤ x ∧ (e < x ∨ match l with [] => True | cur :: _ => cur.1 ≤ x end)
  end.

(** [K] is the list of chunks that the generator produces for [session] when
    it comes after [sessions]. *)
Definition session_output (sessions : list (list Z)) (session : list Z)
    (data : gmap Z slots) (K : list (list record)) : Prop :=
  ∃ before,
    divide_data_to_viatom_chunks sessions data = Ok before ∧
    divide_data_to_viatom_chunks (sessions ++ [session]) data = Ok (before ++ K).

(** The table holds the value [v] of a metric at the instant [u]. *)
Definition observed (field : slots → option Z) (data : gmap Z slots) (u v : Z)
  : Prop :=
  ∃ sl, data !! u = Some sl ∧ field sl = Some v.


(** The instants [t0], [t0 + 4], [t0 + 8], ... *)
Definition on_grid (t0 g : Z) : Prop := ∃ k, 0 ≤ k ∧ g = t0 + spacing * k.

(** Record [r], one of [n] records that start at [t0], was emitted between
    the adjacent entries [cur], [next] of [l]: the session's end was tested
    on an instant of the records that is not before [cur], and the records
    run on to [next]. *)
Definition reached (e : Z) (l : list entry) (t0 : Z) (n : nat) (r : record)
  : Prop :=
  ∃ l1 cur next l2 (j : nat),
    l = l1 ++ cur :: next :: l2 ∧ (j < n)%nat ∧
    cur.1 ≤ t0 + spacing * Z.of_nat j ≤ e ∧
    t0 + spacing * Z.of_nat j ≤ rec_time r < next.1 ∧
    next.1 ≤ t0 + spacing * Z.of_nat n.

(** [t0] is the first instant of the table within the session from [s] to
    [e], the last instant of the table apart. *)
Definition session_start (data : gmap Z slots) (s e t0 : Z) : Prop :=
  is_Some (data !! t0) ∧ s ≤ t0 ≤ e ∧
  (∃ k, is_Some (data !! k) ∧ t0 < k) ∧
  ∀ k, is_Some (data !! k) → s ≤ k → t0 ≤ k.


(** The running value of a metric when a session begins: unassigned in the
    first session, and afterwards what the walk of the session before
    left. *)
Definition prior (field : slots → option Z) (sessions : list (list Z))
    (l : list entry) : option Z :=
  match sessions with
  | [] => None
  | _ => running field None (removelast l)
  end.

End Chunks.

(** ** [write_to_viatom_file] and [export_spo2_as_viatom] *)

Module Viatom.

(** The attributes of a [datetime] that the header stores. *)
Record civil : Type := Civil {
  year : Z; month : Z; day : Z; hour : Z; minute : Z; second : Z
}.

(** A written file: it is named after the first record's timestamp
    ([strftime("%Y%m%d%H%M%S")] followed by [.bin]) and holds [content]. *)
Record file : Type := File {
  stamp : Z;
  content : list Z
}.

(** [struct.pack] with the little-endian formats [B], [H] and [I]: it raises
    [struct.error] when the number does not fit the format. *)
Definition pack_B (x : Z) : result (list Z) :=
  if decide (0 ≤ x ≤ 255) then Ok [x] else Raise StructError.

Definition pack_H (x : Z) : result (list Z) :=
  if decide (0 ≤ x ≤ 65535)
  then Ok [Z.land x 255; Z.shiftr x 8]
  else Raise StructError.

Definition pack_I (x : Z) : result (list Z) :=
  if decide (0 ≤ x ≤ 4294967295)
  then Ok [Z.land x 255; Z.land (Z.shiftr x 8) 255;
           Z.land (Z.shiftr x 16) 255; Z.shiftr x 24]
  else Raise StructError.

(** A format made of several [B]. *)
Fixpoint pack_Bs (xs : list Z) : result (list Z) :=
  match xs with
  | [] => Ok []
  | x :: xs' =>
      let* b := pack_B x in
      let* bs := pack_Bs xs' in
      Ok (b ++ bs)
  end.

(** Reading a little-endian unsigned integer back. *)
Definition le_decode (bytes : list Z) : Z :=
  foldr (λ b acc, b + 256 * acc) 0 bytes.

(** The bytes [offset .. offset + size - 1] of a file. *)
Definition slice (offset size : nat) (bytes : list Z) : list Z :=
  take size (drop offset bytes).

(** Body of the loop over the records (lines 221-233). *)
Definition encode_record (r : record) : result (list Z) :=
  if decide (rec_spo2 r ≤ 61) then
    let* hr := pack_B (rec_bpm r) in
    Ok ([255] ++ hr ++ [255; 0; 0])
  else
    let* sp := (if decide (rec_spo2 r > 99) then pack_B 99
                else pack_B (rec_spo2 r)) in
    let* hr := pack_B (rec_bpm r) in
    Ok (sp ++ hr ++ [0; 0; 0]).

Definition write_record (written : list Z) (r : record) : result (list Z) :=
  let* bytes := encode_record r in
  Ok (written ++ bytes).

(** The layout of one record that section 4.4 prescribes. *)
Definition record_body (r : record) : list Z :=
  if decide (rec_spo2 r ≤ 61)
  then [255; rec_bpm r; 255; 0; 0]
  else [Z.min (rec_spo2 r) 99; rec_bpm r; 0; 0; 0].

(** What an open file holds after a sequence of [f.write(...)] calls: the
    bytes of the calls before the first one whose argument raises. *)
Fixpoint written_bytes (writes : list (result (list Z))) : list Z :=
  match writes with
  | Ok bytes :: writes' => bytes ++ written_bytes writes'
  | _ => []
  end.

(** The [f.write] calls of one record, in the order of lines 222-233. *)
Definition record_writes (r : record) : list (result (list Z)) :=
  if decide (rec_spo2 r ≤ 61) then
    [Ok [255]; pack_B (rec_bpm r); Ok [255; 0; 0]]
  else
    [if decide (rec_spo2 r > 99) then pack_B 99 else pack_B (rec_spo2 r);
     pack_B (rec_bpm r); Ok [0; 0; 0]].

(** The calendar fields that fit their header formats (every [datetime]
    does: its year is at most 9999). *)
Definition fits_header (c : civil) : Prop :=
  0 ≤ year c ≤ 65535 ∧
  Forall (λ x, 0 ≤ x ≤ 255) [month c; day c; hour c; minute c; second c].

Section Writer.

(** The calendar reading of an instant is the datetime library's. *)
Variable fields : Z → civil.

(** The header (lines 201-217). *)
Definition write_header (first : record) (len : Z) : result (list Z) :=
  let c := fields (rec_time first) in
  let* magic := pack_Bs [5; 0] in
  let* yr := pack_H (year c) in
  let* clock := pack_Bs [month c; day c; hour c; minute c; second c] in
  let* size := pack_I (len * 5 + 40) in
  let* duration := pack_H (len * 4) in
  Ok (magic ++ yr ++ clock ++ size ++ duration ++ replicate 25 0).

Definition write_to_viatom_file (data : list record) : result file :=
  let len := Z.of_nat (length data) in
  if decide (len > 4095) then Raise RuntimeError else
  let* first := index data 0 in
  let* header := write_header first len in
  let* bytes := for_each write_record data header in
  Ok {| stamp := rec_time first; content := bytes |}.

(** The [f.write] calls of the header, in the order of lines 201-217. *)
Definition header_writes (first : record) (len : Z) : list (result (list Z)) :=
  let c := fields (rec_time first) in
  [pack_Bs [5; 0]; pack_H (year c);
   pack_Bs [month c; day c; hour c; minute c; second c];
   pack_I (len * 5 + 40); pack_H (len * 4); Ok (replicate 25 0)].

(** The file that a call of [write_to_viatom_file] leaves in the export
    directory, whether it returns or raises.  A call that raises before
    [open] (lines 194-198) leaves none.  After [open] the file exists, and
    the [with] statement closes it when an exception passes: it then holds
    the bytes written before the [struct.pack] that raised. *)
Definition left_behind (data : list record) : option file :=
  let len := Z.of_nat (length data) in
  if decide (len > 4095) then None else
  match data !! 0%nat with
  | None => None
  | Some first =>
      Some {| stamp := rec_time first;
              content := written_bytes (header_writes first len
                                        ++ concat (map record_writes data)) |}
  end.

(** What a run leaves behind: the files that the calls of
    [write_to_viatom_file] left in the export directory, one for each call
    that opened a file, in the order of the calls (a file replaces an earlier
    one of the same name), and the exception that ended the run, if any.
    When the encoder raised after opening a file, that truncated file is the
    last of the list. *)
Record run : Type := Run {
  written : list file;
  raised : option exn
}.

(** The loop [for chunk in chunks: write_to_viatom_file(args, chunk)]. *)
Fixpoint write_chunks (chunks : list (list record)) (done : list file) : run :=
  match chunks with
  | [] => {| written := done; raised := None |}
  | c :: chunks' =>
      match write_to_viatom_file c with
      | Ok f => write_chunks chunks' (done ++ [f])
      | Raise e => {| written := done ++ option_list (left_behind c);
                      raised := Some e |}
      end
  end.

(** [export_spo2_as_viatom], on the streams of the files that [get_spo2_files]
    found. *)
Definition export_spo2_as_viatom (csv_files json_files : list (list sample)) : run :=
  if decide (length csv_files = 0%nat ∨ length json_files = 0%nat)
  then {| written := []; raised := Some FileNotFoundError |}
  else
    match Align.align_spo2_data csv_files json_files with
    | Raise e => {| written := []; raised := Some e |}
    | Ok (sessions, data) =>
        match Chunks.divide_data_to_viatom_chunks sessions data with
        | Raise e => {| written := []; raised := Some e |}
        | Ok chunks => write_chunks chunks []
        end
    end.

End Writer.

(** A calendar for the closed examples: the instants of 1 January 2024,
    counted in seconds from its midnight. *)
Definition new_year_2024 (t : Z) : civil :=
  {| year := 2024; month := 1; day := 1;
     hour := t `div` 3600; minute := (t `mod` 3600) `div` 60;
     second := t `mod` 60 |}.

End Viatom.

(** ** [read_csv] *)

Module Ingest.

(** The generator [read_csv] after the library calls: a row is the timestamp
    converted to the profile's time zone and the value
    [round(float(row["value"]))].  Rows below 61 are skipped and 100 is
    stored as 99 (lines 103-108). *)
Definition read_csv_row (row : Z * Z) : option sample :=
  let '(timestamp, value) := row in
  if decide (value < 61) then None
  else Some (timestamp, if decide (value = 100) then 99 else value).

Definition read_csv (rows : list (Z * Z)) : list sample :=
  omap read_csv_row rows.

End Ingest.

(** ** [generate_dreem_hypnogram] and [get_verbosity] *)

Module Dreem.

(** An element of [json_data]: the keys ["level"] and ["seconds"]. *)
Record stage : Type := Stage {
  level : string;
  seconds : Z
}.

(** The dictionary [levels] (line 241). *)
Definition levels : gmap string string :=
  {[ "wake" := "WAKE"; "rem" := "REM"; "light" := "Light"; "deep" := "Deep" ]}.

(** Body of the loop (lines 244-250): [[label] * intervals] is empty for a
    negative [intervals]; an unknown level only logs a warning. *)
Definition hypnogram_step (sleep_stages : list string) (item : stage)
  : list string :=
  let intervals := seconds item `div` 30 in
  match levels !! level item with
  | Some label => sleep_stages ++ replicate (Z.to_nat intervals) label
  | None => sleep_stages
  end.

Definition generate_dreem_hypnogram (json_data : list stage) : list string :=
  foldl hypnogram_step [] json_data.

(** The seconds that a hypnogram of [n] entries stands for. *)
Definition hypnogram_seconds (sleep_stages : list string) : Z :=
  30 * Z.of_nat (length sleep_stages).

(** The seconds of the items whose level the dictionary knows. *)
Definition known_seconds (json_data : list stage) : Z :=
  foldr (λ item acc,
           (if decide (is_Some (levels !! level item))
            then Z.max 0 (seconds item) else 0) + acc) 0 json_data.

Definition known_items (json_data : list stage) : Z :=
  Z.of_nat (length (filter (λ item, is_Some (levels !! level item)) json_data)).

(** The levels of the [logging] module. *)
Definition DEBUG : Z := 10.
Definition INFO : Z := 20.
Definition WARNING : Z := 30.

(** [get_verbosity] (lines 376-382). *)
Definition get_verbosity (x : Z) : Z :=
  if decide (x >= 2) then DEBUG
  else if decide (x = 1) then INFO
  else WARNING.

End Dreem.

(** ** Vocabulary for the alignment *)

Module AlignSpec.
Import Align.

(** The value of the last sample of a stream at the instant [t]. *)
Definition last_value (t : Z) (samples : list sample) : option Z :=
  snd <$> last (filter (λ smp : sample, smp.1 = t) samples).

(** The slots that two streams leave at the instant [t]. *)
Definition merged (spo2s bpms : list sample) (t : Z) : option slots :=
  match last_value t spo2s, last_value t bpms with
  | None, None => None
  | sp, hr => Some (sp, hr)
  end.

(** The table after the assignments of a stream, in order. *)
Definition spo2_inserts (d : gmap Z slots) (samples : list sample) : gmap Z slots :=
  foldl (λ d smp, set_spo2 smp.1 smp.2 d) d samples.

Definition bpm_inserts (d : gmap Z slots) (samples : list sample) : gmap Z slots :=
  foldl (λ d smp, set_bpm smp.1 smp.2 d) d samples.

(** [b] starts more than five minutes after [a]. *)
Definition far_after (a b : Z) : Prop := b - a > five_minutes.

Definition session_far_after (a b : list Z) : Prop :=
  match a, b with
  | s :: _, s' :: _ => far_after s s'
  | _, _ => False
  end.

(** A session closed at its own start. *)
Definition closed_at (a : Z) : list Z := [a; a].

(** The state of the first loop after the samples [seen]: the sessions but
    the last are closed at their starts, the starts are more than five minutes
    apart and are instants of [seen], and [prev_timestamp] is the last
    instant. *)
Definition segmented (seen : list sample) (st : spo2_state) : Prop :=
  data st = spo2_inserts ∅ seen ∧
  ((seen = [] ∧ sessions st = [] ∧ prev_timestamp st = None) ∨
   (∃ cl start smp,
      sessions st = (closed_at <$> cl) ++ [[start]] ∧
      StronglySorted far_after (cl ++ [start]) ∧
      Forall (λ a, a ∈ seen.*1) (cl ++ [start]) ∧
      last seen = Some smp ∧ prev_timestamp st = Some smp.1)).

End AlignSpec.

(** ** More vocabulary for the generator *)

Module ChunkSpec.
Import Chunks.

(** All the records appended so far, in order. *)
Definition flat (st : gen_state) : list record :=
  concat (chunks st) ++ chunk st.

(** A session as the alignment returns it. *)
Definition is_pair (session : list Z) : Prop := ∃ s e, session = [s; e].

(** Both values of a record occur in the table. *)
Definition from_table (l : list entry) (r : record) : Prop :=
  (∃ c, c ∈ l ∧ c.2.1 = Some (rec_spo2 r)) ∧
  (∃ c, c ∈ l ∧ c.2.2 = Some (rec_bpm r)).

(** The running values are unassigned or occur in the table. *)
Definition running_from_table (l : list entry) (st : gen_state) : Prop :=
  (∀ v, spo2 st = Some v → ∃ c, c ∈ l ∧ c.2.1 = Some v) ∧
  (∀ v, bpm st = Some v → ∃ c, c ∈ l ∧ c.2.2 = Some v).

End ChunkSpec.

(** * Properties *)

(** ** The result monad *)

Lemma bind_Ok {A B : Type} (m : result A) (k : A → result B) (b : B) :
  bind m k = Ok b ↔ ∃ a, m = Ok a ∧ k a = Ok b.
Proof.
  destruct m as [a|e]; simpl; split.
  - intros H. by exists a.
  - by intros (a' & [= ->] & H).
  - discriminate.
  - by intros (a' & [=] & _).
Qed.

Lemma bind_Raise {A B : Type} (m : result A) (k : A → result B) (e : exn) :
  bind m k = Raise e ↔ m = Raise e ∨ ∃ a, m = Ok a ∧ k a = Raise e.
Proof.
  destruct m as [a|e']; simpl; split.
  - intros H. right. by exists a.
  - intros [[=]|(a' & [= ->] & H)]. done.
  - intros [= ->]. by left.
  - intros [[= ->]|(a' & [=] & _)]. done.
Qed.

Ltac inv_bind H :=
  let x := fresh "x" in
  let Hx := fresh "Hx" in
  apply bind_Ok in H as (x & Hx & H).

Lemma for_each_app {S X : Type} (body : S → X → result S) (xs ys : list X) (s : S) :
  for_each body (xs ++ ys) s = let* s' := for_each body xs s in for_each body ys s'.
Proof.
  revert s. induction xs as [|x xs IH]; intros s; simpl; [done|].
  destruct (body s x) as [s'|e]; simpl; [apply IH|done].
Qed.

(** ** The binary encoder *)

Module ViatomFacts.
Import Viatom.

Lemma pack_B_Ok (x : Z) (bytes : list Z) :
  pack_B x = Ok bytes ↔ 0 ≤ x ≤ 255 ∧ bytes = [x].
Proof.
  unfold pack_B. case_decide; split.
  - by intros [= <-].
  - by intros [_ ->].
  - discriminate.
  - by intros [? _].
Qed.

Lemma pack_B_Raise (x : Z) (e : exn) :
  pack_B x = Raise e → e = StructError ∧ ¬ (0 ≤ x ≤ 255).
Proof. unfold pack_B. case_decide; [discriminate|]. by intros [= <-]. Qed.

Lemma encode_record_Ok (r : record) (bytes : list Z) :
  encode_record r = Ok bytes ↔ 0 ≤ rec_bpm r ≤ 255 ∧ bytes = record_body r.
Proof.
  unfold encode_record, record_body, pack_B.
  repeat case_decide; simpl; split;
    try (intros [= <-]); try (intros [? ->]); try discriminate; try lia;
    try (split; [lia|]); repeat f_equal; lia.
Qed.

Lemma encode_record_Raise (r : record) (e : exn) :
  encode_record r = Raise e ↔ e = StructError ∧ ¬ (0 ≤ rec_bpm r ≤ 255).
Proof.
  unfold encode_record, pack_B.
  repeat case_decide; simpl; split;
    try (intros [= <-]); try (intros [-> ?]); try discriminate; try lia; done.
Qed.

Lemma record_body_length (r : record) : length (record_body r) = 5%nat.
Proof. unfold record_body. by case_decide. Qed.

Lemma record_bodies_length (data : list record) :
  length (concat (map record_body data)) = (5 * length data)%nat.
Proof.
  induction data as [|r data IH]; [done|].
  cbn [map concat]. rewrite length_app, record_body_length, IH. simpl. lia.
Qed.

Lemma write_records_Ok (data : list record) (acc bytes : list Z) :
  for_each write_record data acc = Ok bytes ↔
  Forall (λ r, 0 ≤ rec_bpm r ≤ 255) data ∧
  bytes = acc ++ concat (map record_body data).
Proof.
  revert acc. induction data as [|r data IH]; intros acc; simpl.
  - rewrite app_nil_r. split; [by intros [= <-]|by intros [_ ->]].
  - unfold write_record at 1. rewrite Forall_cons. split.
    + intros H. inv_bind H. inv_bind Hx. injection Hx as <-.
      apply encode_record_Ok in Hx0 as [Hhr ->].
      apply IH in H as [Hall ->]. by rewrite <- app_assoc.
    + intros [[Hhr Hall] ->].
      assert (encode_record r = Ok (record_body r)) as -> by by apply encode_record_Ok.
      simpl. apply IH. by rewrite <- app_assoc.
Qed.

Lemma write_records_Raise (data : list record) (acc : list Z) (e : exn) :
  for_each write_record data acc = Raise e ↔
  e = StructError ∧ Exists (λ r, ¬ (0 ≤ rec_bpm r ≤ 255)) data.
Proof.
  revert acc. induction data as [|r data IH]; intros acc; simpl.
  - split; [discriminate|]. intros [_ H]. inversion H.
  - unfold write_record at 1. rewrite Exists_cons.
    destruct (encode_record r) as [bytes|e'] eqn:Hr; simpl.
    + rewrite IH. apply encode_record_Ok in Hr as [Hhr _]. tauto.
    + apply encode_record_Raise in Hr as [-> Hhr]. split.
      * intros [= <-]. tauto.
      * by intros [-> _].
Qed.

Lemma slice_app_length (pre bytes post : list Z) (n m : nat) :
  length pre = n → length bytes = m → slice n m (pre ++ bytes ++ post) = bytes.
Proof.
  intros Hn Hm. unfold slice.
  rewrite drop_app_length' by done. by rewrite take_app_length'.
Qed.

Lemma slice_record_body (data : list record) (i : nat) (r : record) :
  data !! i = Some r →
  slice (5 * i) 5 (concat (map record_body data)) = record_body r.
Proof.
  revert i. induction data as [|r0 data IH]; intros i Hi; [done|].
  cbn [map concat]. destruct i as [|i]; simpl in Hi.
  - injection Hi as ->.
    rewrite <- (app_nil_l (record_body r ++ _)).
    apply slice_app_length; [done|apply record_body_length].
  - replace (5 * S i)%nat with (length (record_body r0) + 5 * i)%nat
      by (rewrite record_body_length; lia).
    unfold slice. rewrite drop_app_add. by apply IH.
Qed.

(** Little-endian packing and its inverse. *)
Lemma pack_H_Ok (x : Z) (bytes : list Z) :
  pack_H x = Ok bytes →
  0 ≤ x ≤ 65535 ∧ length bytes = 2%nat ∧ le_decode bytes = x.
Proof.
  unfold pack_H. case_decide; [|discriminate]. intros [= <-].
  split; [done|]. split; [done|]. unfold le_decode; simpl.
  change 255 with (Z.ones 8). rewrite Z.land_ones, Z.shiftr_div_pow2 by lia.
  change (2 ^ 8) with 256. Z.to_euclidean_division_equations. lia.
Qed.

Lemma pack_I_Ok (x : Z) (bytes : list Z) :
  pack_I x = Ok bytes →
  0 ≤ x ≤ 4294967295 ∧ length bytes = 4%nat ∧ le_decode bytes = x.
Proof.
  unfold pack_I. case_decide; [|discriminate]. intros [= <-].
  split; [done|]. split; [done|]. unfold le_decode; simpl.
  change 255 with (Z.ones 8).
  rewrite !Z.land_ones, !Z.shiftr_div_pow2 by lia.
  change (2 ^ 8) with 256. change (2 ^ 16) with 65536.
  change (2 ^ 24) with 16777216. Z.to_euclidean_division_equations. lia.
Qed.

Lemma pack_Bs_Ok (xs bytes : list Z) :
  pack_Bs xs = Ok bytes ↔ Forall (λ x, 0 ≤ x ≤ 255) xs ∧ bytes = xs.
Proof.
  revert bytes. induction xs as [|x xs IH]; intros bytes; simpl.
  - split; [by intros [= <-]|by intros [_ ->]].
  - rewrite Forall_cons. split.
    + intros H. inv_bind H. inv_bind H. injection H as <-.
      apply pack_B_Ok in Hx as [? ->]. apply IH in Hx0 as [? ->]. done.
    + intros [[Hx Hxs] ->].
      assert (pack_B x = Ok [x]) as -> by by apply pack_B_Ok.
      assert (pack_Bs xs = Ok xs) as -> by by apply IH.
      done.
Qed.

Lemma pack_Bs_Raise (xs : list Z) (e : exn) :
  pack_Bs xs = Raise e → e = StructError.
Proof.
  induction xs as [|x xs IH]; simpl; [discriminate|].
  intros [H|(? & _ & H)]%bind_Raise.
  - by apply pack_B_Raise in H as [-> _].
  - apply bind_Raise in H as [H|(? & _ & H)]; [auto|discriminate].
Qed.

Lemma pack_H_Raise (x : Z) (e : exn) : pack_H x = Raise e → e = StructError.
Proof. unfold pack_H. case_decide; [discriminate|]. by intros [= <-]. Qed.

Lemma pack_I_Raise (x : Z) (e : exn) : pack_I x = Raise e → e = StructError.
Proof. unfold pack_I. case_decide; [discriminate|]. by intros [= <-]. Qed.

Section WriterFacts.

Variable fields : Z → civil.

(** The header is forty bytes: nine bytes of magic and date, the size field,
    the duration field, and the padding. *)
Lemma write_header_Ok (first : record) (len : Z) (header : list Z) :
  write_header fields first len = Ok header →
  ∃ date size duration,
    header = date ++ size ++ duration ++ replicate 25 0 ∧
    length date = 9%nat ∧
    pack_I (len * 5 + 40) = Ok size ∧
    pack_H (len * 4) = Ok duration.
Proof.
  unfold write_header. intros H.
  inv_bind H. inv_bind H. inv_bind H. inv_bind H. inv_bind H.
  injection H as <-.
  apply pack_Bs_Ok in Hx as [_ ->].
  apply pack_Bs_Ok in Hx1 as [_ ->].
  pose proof (pack_H_Ok _ _ Hx0) as (_ & Hlen & _).
  exists ([5; 0] ++ x0 ++ [month (fields (rec_time first));
    day (fields (rec_time first)); hour (fields (rec_time first));
    minute (fields (rec_time first)); second (fields (rec_time first))]), x2, x3.
  split; [by rewrite <- !app_assoc|].
  split; [|done]. rewrite !length_app, Hlen. done.
Qed.

Lemma write_header_length (first : record) (len : Z) (header : list Z) :
  write_header fields first len = Ok header → length header = 40%nat.
Proof.
  intros (date & size & duration & -> & Hd & Hs & Hdur)%write_header_Ok.
  apply pack_I_Ok in Hs as (_ & Hs & _).
  apply pack_H_Ok in Hdur as (_ & Hdur & _).
  rewrite !length_app, Hd, Hs, Hdur, length_replicate. done.
Qed.

Lemma write_header_fits (first : record) (len : Z) :
  fits_header (fields (rec_time first)) → 0 ≤ len ≤ 4095 →
  ∃ header, write_header fields first len = Ok header.
Proof.
  intros [Hy Hrest] Hlen. unfold write_header.
  assert (pack_Bs [5; 0] = Ok [5; 0]) as -> by done.
  unfold pack_H at 1. rewrite decide_True by done.
  match goal with |- context [pack_Bs ?l] =>
    assert (pack_Bs l = Ok l) as -> by by apply pack_Bs_Ok end.
  unfold pack_I. rewrite decide_True by lia.
  unfold pack_H. rewrite decide_True by lia.
  simpl. eauto.
Qed.

Lemma write_header_Raise (first : record) (len : Z) (e : exn) :
  write_header fields first len = Raise e → e = StructError.
Proof.
  unfold write_header. intros H.
  repeat (apply bind_Raise in H as [H|(? & _ & H)];
          [eauto using pack_Bs_Raise, pack_H_Raise, pack_I_Raise|]).
  discriminate.
Qed.

(** The file is the header followed by the records' bodies. *)
Lemma write_to_viatom_file_Ok (data : list record) (f : file) :
  write_to_viatom_file fields data = Ok f →
  ∃ first header,
    data !! 0%nat = Some first ∧
    Z.of_nat (length data) ≤ 4095 ∧
    write_header fields first (Z.of_nat (length data)) = Ok header ∧
    Forall (λ r, 0 ≤ rec_bpm r ≤ 255) data ∧
    stamp f = rec_time first ∧
    content f = header ++ concat (map record_body data).
Proof.
  unfold write_to_viatom_file. case_decide as Hlen; [discriminate|]. intros H.
  inv_bind H. inv_bind H. inv_bind H. injection H as <-.
  unfold index in Hx. destruct (data !! 0%nat) as [first|] eqn:Hfirst; [|done].
  injection Hx as <-.
  apply write_records_Ok in Hx1 as [Hall ->].
  exists first, x0. repeat split; try done; lia.
Qed.

Lemma write_to_viatom_file_fits (data : list record) (first : record) :
  data !! 0%nat = Some first →
  Z.of_nat (length data) ≤ 4095 →
  fits_header (fields (rec_time first)) →
  Forall (λ r, 0 ≤ rec_bpm r ≤ 255) data →
  ∃ f, write_to_viatom_file fields data = Ok f.
Proof.
  intros Hfirst Hlen Hfits Hall. unfold write_to_viatom_file.
  rewrite decide_False by lia. unfold index. rewrite Hfirst. simpl.
  destruct (write_header_fits first (Z.of_nat (length data)))
    as [header ->]; [done|lia|]. simpl.
  assert (for_each write_record data header
          = Ok (header ++ concat (map record_body data))) as ->
    by by apply write_records_Ok.
  simpl. eauto.
Qed.

(** Record [i] occupies the five bytes from offset [40 + 5 * i]. *)
Lemma slice_record (data : list record) (f : file) (i : nat) (r : record) :
  write_to_viatom_file fields data = Ok f →
  data !! i = Some r →
  slice (40 + 5 * i) 5 (content f) = record_body r.
Proof.
  intros (first & header & _ & _ & Hh & _ & _ & ->)%write_to_viatom_file_Ok Hi.
  apply write_header_length in Hh. unfold slice.
  rewrite <- Hh, drop_app_add. by apply slice_record_body.
Qed.

Lemma slice_lookup (offset size j : nat) (bytes : list Z) :
  (j < size)%nat → slice offset size bytes !! j = bytes !! (offset + j)%nat.
Proof. intros Hj. unfold slice. by rewrite lookup_take_lt, lookup_drop. Qed.

Lemma record_body_bpm (r : record) : record_body r !! 1%nat = Some (rec_bpm r).
Proof. unfold record_body. by case_decide. Qed.

Lemma write_to_viatom_file_Raise (data : list record) (e : exn) :
  write_to_viatom_file fields data = Raise e →
  (e = RuntimeError ∧ Z.of_nat (length data) > 4095) ∨
  (e = IndexError ∧ data = []) ∨
  (e = StructError ∧ Z.of_nat (length data) ≤ 4095).
Proof.
  unfold write_to_viatom_file. case_decide as Hlen.
  { intros [= <-]. by left. }
  intros H. right.
  apply bind_Raise in H as [H|(first & _ & H)].
  { left. unfold index in H. destruct data; [|done]. by injection H as <-. }
  right. split; [|lia].
  apply bind_Raise in H as [H|(header & _ & H)].
  { by eapply write_header_Raise. }
  apply bind_Raise in H as [H|(? & _ & H)]; [|done].
  by apply write_records_Raise in H as [-> _].
Qed.

(** *** The file that a call leaves *)

Lemma record_writes_Ok (r : record) (writes : list (result (list Z))) :
  0 ≤ rec_bpm r ≤ 255 →
  written_bytes (record_writes r ++ writes) = record_body r ++ written_bytes writes.
Proof.
  intros Hhr. unfold record_writes, record_body, pack_B.
  repeat case_decide; try lia; cbn [app written_bytes]; repeat f_equal; lia.
Qed.

Lemma record_writes_Raise (r : record) (writes : list (result (list Z))) :
  ¬ (0 ≤ rec_bpm r ≤ 255) →
  written_bytes (record_writes r ++ writes) = take 1 (record_body r).
Proof.
  intros Hhr. unfold record_writes, record_body, pack_B.
  repeat case_decide; try lia; cbn [app written_bytes take]; repeat f_equal; lia.
Qed.

Lemma records_writes_Ok (data : list record) (writes : list (result (list Z))) :
  Forall (λ r, 0 ≤ rec_bpm r ≤ 255) data →
  written_bytes (concat (map record_writes data) ++ writes)
  = concat (map record_body data) ++ written_bytes writes.
Proof.
  induction 1 as [|r data Hr _ IH]; [done|].
  cbn [map concat]. by rewrite <- !app_assoc, record_writes_Ok, IH.
Qed.

Lemma records_writes_Raise (data : list record) (i : nat) (r : record)
    (writes : list (result (list Z))) :
  data !! i = Some r → ¬ (0 ≤ rec_bpm r ≤ 255) →
  Forall (λ r, 0 ≤ rec_bpm r ≤ 255) (take i data) →
  written_bytes (concat (map record_writes data) ++ writes)
  = concat (map record_body (take i data)) ++ take 1 (record_body r).
Proof.
  intros Hi Hr Hall. rewrite <- (take_drop_middle data i r Hi) at 1.
  rewrite map_app, concat_app, <- app_assoc, (records_writes_Ok _ _ Hall).
  cbn [map concat]. by rewrite <- app_assoc, record_writes_Raise.
Qed.

Lemma header_writes_Ok (first : record) (len : Z) (header : list Z)
    (writes : list (result (list Z))) :
  write_header fields first len = Ok header →
  written_bytes (header_writes fields first len ++ writes)
  = header ++ written_bytes writes.
Proof.
  unfold write_header, header_writes. intros H.
  inv_bind H. inv_bind H. inv_bind H. inv_bind H. inv_bind H.
  injection H as <-. rewrite Hx, Hx0, Hx1, Hx2, Hx3.
  cbn [app written_bytes]. by rewrite <- !app_assoc.
Qed.

(** A call that returns leaves the file that it returns. *)
Lemma left_behind_Ok (data : list record) (f : file) :
  write_to_viatom_file fields data = Ok f → left_behind fields data = Some f.
Proof.
  intros (first & header & Hfirst & Hlen & Hh & Hall & Hstamp & Hcontent)
    %write_to_viatom_file_Ok.
  unfold left_behind. rewrite decide_False by lia. rewrite Hfirst.
  rewrite (header_writes_Ok _ _ _ _ Hh).
  rewrite <- (app_nil_r (concat (map record_writes data))).
  rewrite (records_writes_Ok _ _ Hall). cbn [written_bytes].
  rewrite app_nil_r. destruct f as [st ct]. simpl in *. by subst.
Qed.

(** A call that raises leaves a file exactly when it raises [struct.error]. *)
Lemma left_behind_Raise (data : list record) (e : exn) :
  write_to_viatom_file fields data = Raise e →
  (e ≠ StructError ∧ left_behind fields data = None) ∨
  (e = StructError ∧ ∃ first, data !! 0%nat = Some first ∧
     left_behind fields data
     = Some {| stamp := rec_time first;
               content := written_bytes
                            (header_writes fields first (Z.of_nat (length data))
                             ++ concat (map record_writes data)) |}).
Proof.
  intros H. unfold left_behind.
  destruct (write_to_viatom_file_Raise _ _ H) as [[-> Hlen]|[[-> ->]|[-> Hlen]]].
  - left. by rewrite decide_True.
  - left. done.
  - right. split; [done|]. rewrite decide_False by lia.
    destruct data as [|first data]; [by vm_compute in H|by exists first].
Qed.

End WriterFacts.

End ViatomFacts.

(** ** Alignment *)

Module AlignFacts.
Import Align.

Lemma for_each_concat {S X : Type} (body : S → X → result S)
    (files : list (list X)) (s : S) :
  for_each (λ st file, for_each body file st) files s
  = for_each body (concat files) s.
Proof.
  revert s. induction files as [|file files IH]; intros s; [done|].
  cbn [for_each concat]. rewrite for_each_app.
  destruct (for_each body file s); simpl; [apply IH|done].
Qed.

Lemma append_to_last_snoc (x : Z) (ss : list (list Z)) (s : list Z) :
  append_to_last x (ss ++ [s]) = ss ++ [s ++ [x]].
Proof.
  unfold append_to_last. rewrite length_app. simpl.
  replace (pred (length ss + 1)) with (length ss + 0)%nat by lia.
  by rewrite alter_app_r.
Qed.

(** The shape of [sessions] inside the first loop: every session but the
    last is closed, at its own start; the last one is open. *)
Inductive open_sessions : spo2_state → Prop :=
| open_none (d : gmap Z slots) :
    open_sessions {| sessions := []; data := d; prev_timestamp := None |}
| open_some (closed : list (list Z)) (start prev : Z) (d : gmap Z slots) :
    Forall (λ s, ∃ a, s = [a; a]) closed →
    open_sessions {| sessions := closed ++ [[start]]; data := d;
                     prev_timestamp := Some prev |}.

Lemma spo2_step_open (st : spo2_state) (smp : sample) :
  open_sessions st →
  ∃ st', spo2_step st smp = Ok st' ∧ open_sessions st' ∧ sessions st' ≠ [] ∧
         prev_timestamp st' = Some smp.1.
Proof.
  destruct smp as [timestamp value]. intros Hst. unfold spo2_step.
  destruct Hst as [d|closed start prev d Hclosed]; cbn [sessions data].
  - simpl. eexists. split; [done|]. split; [|done].
    by apply (open_some [] timestamp timestamp).
  - rewrite last_snoc. cbn [index lookup list_lookup bind].
    case_decide; simpl.
    + rewrite append_to_last_snoc, <- app_assoc. simpl.
      eexists. split; [done|]. split.
      * rewrite cons_middle, app_assoc.
        apply open_some. apply Forall_app. split; [done|].
        apply Forall_singleton. by exists start.
      * split; [|done]. by destruct closed.
    + eexists. split; [done|]. split; [by apply open_some|].
      split; [|done]. by destruct closed.
Qed.

Lemma spo2_loop_open (samples : list sample) (st : spo2_state) :
  open_sessions st →
  ∃ st', for_each spo2_step samples st = Ok st' ∧ open_sessions st' ∧
         (sessions st' = [] ↔ sessions st = [] ∧ samples = []).
Proof.
  revert st. induction samples as [|smp samples IH]; intros st Hst.
  - exists st. simpl. tauto.
  - destruct (spo2_step_open st smp Hst) as (st1 & Hstep & Hopen & Hne & _).
    destruct (IH st1 Hopen) as (st' & Hloop & Hopen' & Hnil).
    exists st'. simpl. rewrite Hstep. simpl. split; [done|]. split; [done|].
    split; [|by intros [_ [=]]]. intros H%Hnil. tauto.
Qed.

Lemma bpm_loop (samples : list sample) (st : bpm_state) :
  ∃ st', for_each bpm_step samples st = Ok st' ∧
         last_bpm_timestamp st' =
           match last samples with
           | Some smp => Some smp.1
           | None => last_bpm_timestamp st
           end.
Proof.
  revert st. induction samples as [|[t v] samples IH]; intros st.
  - by exists st.
  - destruct (IH {| bpm_data := set_bpm t v (bpm_data st);
                    last_bpm_timestamp := Some t |}) as (st' & Hloop & Hlast).
    exists st'. split; [done|]. rewrite Hlast.
    destruct samples as [|smp samples]; [done|].
    rewrite last_cons_cons.
    destruct (last (smp :: samples)) eqn:Hsome; [done|].
    by apply last_None in Hsome.
Qed.

Lemma filter_loop (last_bpm : Z) (ss acc : list (list Z)) :
  Forall (λ s, ∃ a b, s = [a; b]) ss →
  for_each (filter_step last_bpm) ss acc
  = Ok (acc ++ filter (covered last_bpm) ss).
Proof.
  revert acc. induction ss as [|s ss IH]; intros acc Hss.
  - simpl. by rewrite app_nil_r.
  - apply Forall_cons in Hss as [(a & b & ->) Hss]. simpl.
    unfold filter_step at 1. cbn [index lookup list_lookup bind].
    rewrite filter_cons. case_decide as Hb; cbn [bind].
    + rewrite IH, decide_True by done. by rewrite <- app_assoc.
    + rewrite decide_False by done. by apply IH.
Qed.

(** The three outcomes of the alignment: no saturation sample, no heart-rate
    sample, or the sessions that the post-filter keeps.  Every session but the
    last was closed at its own start. *)
Lemma align_spo2_data_cases (csv_files json_files : list (list sample)) :
  (concat csv_files = [] ∧
   align_spo2_data csv_files json_files = Raise FileNotFoundError) ∨
  (concat csv_files ≠ [] ∧ concat json_files = [] ∧
   align_spo2_data csv_files json_files = Raise FileNotFoundError) ∨
  (concat csv_files ≠ [] ∧
   ∃ closed start prev last_smp d,
     Forall (λ s, ∃ a, s = [a; a]) closed ∧
     last (concat json_files) = Some last_smp ∧
     align_spo2_data csv_files json_files
     = Ok (filter (covered last_smp.1) (closed ++ [[start; prev]]), d)).
Proof.
  remember (align_spo2_data csv_files json_files) as res eqn:H.
  unfold align_spo2_data in H. rewrite for_each_concat in H.
  destruct (spo2_loop_open (concat csv_files)
              {| sessions := []; data := ∅; prev_timestamp := None |})
    as (st & Hst & Hopen & Hnil); [constructor|].
  rewrite Hst in H. cbn [bind sessions] in H.
  destruct (decide (length (sessions st) = 0%nat)) as [Hlen|Hlen].
  { apply length_zero_iff_nil in Hlen. apply Hnil in Hlen as [_ ->]. by left. }
  assert (concat csv_files ≠ []) as Hcsv.
  { intros Hc. apply Hlen. by rewrite (proj2 Hnil). }
  right.
  destruct Hopen as [d|closed start prev d Hclosed]; [done|].
  cbn [sessions prev_timestamp data] in H.
  unfold index at 1 in H. rewrite <- last_lookup, last_snoc in H.
  cbn [bind] in H. rewrite decide_True in H by done.
  cbn [read_local bind] in H. rewrite append_to_last_snoc in H.
  rewrite for_each_concat in H.
  destruct (bpm_loop (concat json_files)
              {| bpm_data := d; last_bpm_timestamp := None |})
    as (bst & Hbst & Hlast).
  rewrite Hbst in H. cbn [bind last_bpm_timestamp] in *. rewrite Hlast in H.
  destruct (last (concat json_files)) as [smp|] eqn:Hjson.
  - rewrite filter_loop in H.
    + right. split; [done|]. simpl in H.
      by exists closed, start, prev, smp, (bpm_data bst).
    + apply Forall_app. split.
      * eapply Forall_impl; [done|]. intros s [a ->]. eauto.
      * apply Forall_singleton. eauto.
  - apply last_None in Hjson. by left.
Qed.

(** The only exception of the alignment is the missing-data error, and it is
    raised exactly when one of the two streams is empty. *)
Lemma align_spo2_data_Raise (csv_files json_files : list (list sample)) (e : exn) :
  align_spo2_data csv_files json_files = Raise e ↔
  e = FileNotFoundError ∧ (concat csv_files = [] ∨ concat json_files = []).
Proof.
  destruct (align_spo2_data_cases csv_files json_files)
    as [[Hc ->]|[(Hc & Hj & ->)|(Hc & closed & start & prev & smp & d & _ & Hj & ->)]].
  - split; [intros [= <-]; auto|by intros [-> _]].
  - split; [intros [= <-]; auto|by intros [-> _]].
  - split; [done|]. intros [_ [?|Hj']]; [done|]. by rewrite Hj' in Hj.
Qed.

(** In the result every session but the last ends at its own start. *)
Lemma align_spo2_data_Ok (csv_files json_files : list (list sample))
    (ss : list (list Z)) (d : gmap Z slots) (i : nat) (session : list Z) :
  align_spo2_data csv_files json_files = Ok (ss, d) →
  ss !! i = Some session → (S i < length ss)%nat →
  ∃ a, session = [a; a].
Proof.
  destruct (align_spo2_data_cases csv_files json_files)
    as [[Hc ->]|[(Hc & Hj & ->)|(Hc & closed & start & prev & smp & d' & Hcl & Hj & ->)]];
    [done..|].
  intros [= <- <-]. rewrite filter_app. intros Hi Hlt.
  assert (length (filter (covered smp.1) [[start; prev]]) ≤ 1)%nat as Hone.
  { rewrite filter_cons, filter_nil. case_decide; simpl; lia. }
  rewrite length_app in Hlt.
  rewrite lookup_app_l in Hi by lia.
  apply list_elem_of_lookup_2, list_elem_of_filter in Hi as [_ Hi].
  rewrite Forall_forall in Hcl. by apply Hcl.
Qed.

End AlignFacts.

(** ** The chunk generator *)

Module ChunkFacts.
Import Chunks.

Lemma split_snoc {A : Type} (l1 l2 : list A) (x : A) :
  l1 ++ x :: l2 = (l1 ++ [x]) ++ l2.
Proof. by rewrite <- app_assoc. Qed.

Lemma emit_unfold (st : gen_state) (timestamp end_timestamp : Z) :
  emit st timestamp end_timestamp =
  if decide (timestamp < end_timestamp)
  then let* st' := append_record st timestamp in
       emit st' (timestamp + spacing) end_timestamp
  else Ok (st, timestamp).
Proof.
  simp emit. destruct (decide (timestamp < end_timestamp)); simpl; [|done].
  by destruct (append_record st timestamp).
Qed.

Lemma append_record_Ok (st st' : gen_state) (timestamp : Z) :
  append_record st timestamp = Ok st' →
  ∃ s b, spo2 st = Some s ∧ bpm st = Some b ∧
         spo2 st' = Some s ∧ bpm st' = Some b ∧
         ∀ base rs, shape base st rs → shape base st' (rs ++ [(timestamp, s, b)]).
Proof.
  unfold append_record. intros H.
  destruct (decide (max_records ≤ Z.of_nat (length (chunk st)))) as [Hfull|Hroom];
    cbn [flush spo2 bpm chunks chunk] in H;
    destruct (spo2 st) as [s|] eqn:Hs; try discriminate;
    destruct (bpm st) as [b|] eqn:Hb; try discriminate;
    injection H as <-; exists s, b; repeat split; try done;
    intros base rs (K & HK & HF & Hlen & Hnil & Hrs); unfold shape;
    cbn [chunks chunk].
  - exists (K ++ [chunk st]). rewrite HK, <- app_assoc.
    split; [done|]. split.
    { apply Forall_app. split; [done|]. apply Forall_singleton. unfold full. lia. }
    split; [unfold max_records; simpl; lia|]. split; [done|].
    rewrite concat_app. simpl. rewrite app_nil_r, <- Hrs. by rewrite <- !app_assoc.
  - exists K. split; [done|]. split; [done|].
    split; [rewrite length_app; simpl; lia|].
    split; [by destruct (chunk st)|]. by rewrite app_assoc, Hrs.
Qed.

Lemma stamps_app (n m : nat) (t : Z) :
  stamps (n + m) t = stamps n t ++ stamps m (t + spacing * Z.of_nat n).
Proof.
  revert t. induction n as [|n IH]; intros t.
  - simpl. f_equal. lia.
  - cbn [Nat.add stamps app]. f_equal. rewrite IH. do 2 f_equal. lia.
Qed.

Lemma stamps_lookup (n i : nat) (t : Z) :
  (i < n)%nat → stamps n t !! i = Some (t + spacing * Z.of_nat i).
Proof.
  revert i t. induction n as [|n IH]; intros i t Hi; [lia|].
  destruct i as [|i]; simpl.
  - f_equal. lia.
  - rewrite IH by lia. f_equal. lia.
Qed.

Lemma stamps_length (n : nat) (t : Z) : length (stamps n t) = n.
Proof. revert t. induction n as [|n IH]; intros t; simpl; [done|]. by rewrite IH. Qed.

(** The [while] loop always ends; it emits instants [spacing] apart, all
    before [end_timestamp], with the running values, and stops at the first
    such instant not before [end_timestamp]. *)
Lemma emit_Ok (st st' : gen_state) (timestamp end_timestamp final : Z) :
  emit st timestamp end_timestamp = Ok (st', final) →
  ∃ rs : list record,
    final = timestamp + spacing * Z.of_nat (length rs) ∧
    (timestamp < end_timestamp →
       end_timestamp ≤ final < end_timestamp + spacing ∧ rs ≠ []) ∧
    (end_timestamp ≤ timestamp → rs = []) ∧
    map rec_time rs = stamps (length rs) timestamp ∧
    Forall (λ r, rec_time r < end_timestamp ∧
                 spo2 st = Some (rec_spo2 r) ∧ bpm st = Some (rec_bpm r)) rs ∧
    spo2 st' = spo2 st ∧ bpm st' = bpm st ∧
    ∀ base rs0, shape base st rs0 → shape base st' (rs0 ++ rs).
Proof.
  remember (Z.to_nat (end_timestamp - timestamp)) as m eqn:Hm.
  revert st timestamp Hm. induction m as [m IH] using lt_wf_ind.
  intros st timestamp -> H. rewrite emit_unfold in H.
  destruct (decide (timestamp < end_timestamp)) as [Hlt|Hge].
  - inv_bind H.
    apply append_record_Ok in Hx as (s & b & Hs & Hb & Hs' & Hb' & Hshape).
    unfold spacing in *.
    destruct (IH (Z.to_nat (end_timestamp - (timestamp + 4))) ltac:(lia)
                x (timestamp + 4) eq_refl H)
      as (rs & Hfinal & Hin & Hout & Htimes & Hall & Hsp & Hbp & Hsh).
    exists ((timestamp, s, b) :: rs). cbn [length map stamps].
    split; [lia|]. split.
    { intros _. split; [|done].
      destruct (decide (timestamp + 4 < end_timestamp)) as [Hmore|Hdone].
      - apply Hin in Hmore. lia.
      - rewrite Hout in Hfinal by lia. simpl in Hfinal. lia. }
    split; [lia|]. split; [by rewrite Htimes|]. split.
    { apply Forall_cons. split; [done|].
      eapply Forall_impl; [done|]. intros r (? & ? & ?).
      repeat split; [done|congruence..]. }
    split; [congruence|]. split; [congruence|].
    intros base rs0 Hrs0. rewrite cons_middle, app_assoc. auto.
  - injection H as <- <-. exists []. simpl.
    repeat split; try done; try lia. intros base rs0. by rewrite app_nil_r.
Qed.

Lemma emit_Raise (st : gen_state) (timestamp end_timestamp : Z) (err : exn) :
  emit st timestamp end_timestamp = Raise err ↔
  err = UnboundLocalError ∧ timestamp < end_timestamp ∧
  (spo2 st = None ∨ bpm st = None).
Proof.
  remember (Z.to_nat (end_timestamp - timestamp)) as m eqn:Hm.
  revert st timestamp Hm. induction m as [m IH] using lt_wf_ind.
  intros st timestamp ->. rewrite emit_unfold.
  destruct (decide (timestamp < end_timestamp)) as [Hlt|Hge];
    [|split; [discriminate|intros (_ & ? & _); lia]].
  destruct (append_record st timestamp) as [st1|err1] eqn:Happ; cbn [bind].
  - apply append_record_Ok in Happ as (s & b & Hs & Hb & Hs' & Hb' & _).
    unfold spacing.
    rewrite (IH (Z.to_nat (end_timestamp - (timestamp + 4))) ltac:(lia)
               st1 (timestamp + 4) eq_refl).
    rewrite Hs, Hb, Hs', Hb'. split; by intros (_ & _ & [?|?]).
  - unfold append_record in Happ.
    destruct (decide (max_records ≤ Z.of_nat (length (chunk st))));
      cbn [flush spo2 bpm] in Happ;
      destruct (spo2 st), (bpm st); simplify_eq/=;
      (split; [intros [= <-]; auto|by intros [-> _]]).
Qed.

Lemma observe_shape (values : slots) (st : gen_state) base rs :
  shape base st rs → shape base (observe values st) rs.
Proof. done. Qed.

Lemma stamps_ge (n : nat) (t x : Z) : x ∈ stamps n t → t ≤ x.
Proof.
  revert t. induction n as [|n IH]; intros t; simpl; [by intros ?%elem_of_nil|].
  intros [->|Hx%IH]%elem_of_cons; unfold spacing in *; lia.
Qed.

Lemma running_cons (field : slots → option Z) (r0 : option Z) (c : entry)
    (es : list entry) :
  running field r0 (c :: es) = running field (carry r0 (field c.2)) es.
Proof. done. Qed.

Lemma emitted_cons (s e : Z) (c : entry) (l : list entry) (st : gen_state)
    (r : record) :
  emitted s e l (spo2 (observe c.2 st)) (bpm (observe c.2 st)) r →
  emitted s e (c :: l) (spo2 st) (bpm st) r.
Proof.
  intros (l1 & cur & next & l2 & -> & Ht & Hs & He & Hsp & Hbp).
  exists (c :: l1), cur, next, l2. repeat split; try done; lia.
Qed.

(** One step of the walk for a session [[s; e]]: the pair is skipped, or
    records are emitted from the current position, which lies in the
    session. *)
Lemma pair_step_Ok (s e : Z) (cur next : entry) (st st1 : gen_state)
    (last_timestamp last1 : option Z) :
  pair_step [s; e] cur next (st, last_timestamp) = Ok (st1, last1) →
  let timestamp := default cur.1 last_timestamp in
  ((timestamp < s ∨ e < timestamp) ∧
     st1 = observe cur.2 st ∧ last1 = last_timestamp) ∨
  (s ≤ timestamp ≤ e ∧
     ∃ final, emit (observe cur.2 st) timestamp next.1 = Ok (st1, final) ∧
              last1 = Some final).
Proof.
  intros H timestamp. unfold pair_step in H.
  cbn [index lookup list_lookup bind] in H.
  change (match last_timestamp with Some t => t | None => cur.1 end)
    with timestamp in H.
  destruct (decide (timestamp < s)); [injection H as <- <-; left; auto|].
  destruct (decide (timestamp > e));
    [injection H as <- <-; left; split; [lia|done]|].
  right. split; [lia|]. inv_bind H. destruct x as [st2 final].
  injection H as <- <-. eauto.
Qed.

(** The walk for a session [[s; e]]. *)
Lemma reached_cons (e : Z) (c : entry) (l : list entry) (t0 : Z) (n : nat)
    (r : record) :
  reached e l t0 n r → reached e (c :: l) t0 n r.
Proof.
  intros (l1 & cur & next & l2 & j & -> & ?). by exists (c :: l1), cur, next, l2, j.
Qed.

Lemma walk_Ok (s e : Z) (l : list entry) :
  ∀ (st st' : gen_state) (last_timestamp last' : option Z),
    walk_pairs [s; e] l (st, last_timestamp) = Ok (st', last') →
    last_ok s e l last_timestamp →
    ∃ (rs : list record) (t0 : Z),
      (∀ base rs0, shape base st rs0 → shape base st' (rs0 ++ rs)) ∧
      Forall (emitted s e l (spo2 st) (bpm st)) rs ∧
      map rec_time rs = stamps (length rs) t0 ∧
      (∀ x, last_timestamp = Some x → t0 = x) ∧
      ((last' = Some (t0 + spacing * Z.of_nat (length rs)) ∧
        (last_timestamp = None → first_inside s e l t0)) ∨
       (last' = None ∧ last_timestamp = None ∧ rs = [] ∧
        Forall (outside s e) (removelast l))) ∧
      (∀ y, last' = Some y →
         s ≤ y ∧ (e < y ∨ ∀ z, last l = Some z → z.1 ≤ y)) ∧
      Forall (reached e l t0 (length rs)) rs.
Proof.
  assert (∀ (st : gen_state) (last_timestamp : option Z) (l0 : list entry),
    (length l0 ≤ 1)%nat → last_ok s e l0 last_timestamp →
    ∃ (rs : list record) (t0 : Z),
      (∀ base rs0, shape base st rs0 → shape base st (rs0 ++ rs)) ∧
      Forall (emitted s e l0 (spo2 st) (bpm st)) rs ∧
      map rec_time rs = stamps (length rs) t0 ∧
      (∀ x, last_timestamp = Some x → t0 = x) ∧
      ((last_timestamp = Some (t0 + spacing * Z.of_nat (length rs)) ∧
        (last_timestamp = None → first_inside s e l0 t0)) ∨
       (last_timestamp = None ∧ last_timestamp = None ∧ rs = [] ∧
        Forall (outside s e) (removelast l0))) ∧
      (∀ y, last_timestamp = Some y →
         s ≤ y ∧ (e < y ∨ ∀ z, last l0 = Some z → z.1 ≤ y)) ∧
      Forall (reached e l0 t0 (length rs)) rs) as Hshort.
  { intros st last_timestamp l0 Hlen Hok.
    exists [], (default 0 last_timestamp). simpl.
    split; [intros base rs0; by rewrite app_nil_r|].
    split; [done|]. split; [done|]. split; [by intros x ->|]. split; [|split].
    - destruct last_timestamp as [x|]; [left|right].
      + split; [f_equal; simpl; unfold spacing; lia|done].
      + repeat split. by destruct l0 as [|? [|]]; simpl in *; [..|lia].
    - intros y ->. destruct Hok as [Hs He]. split; [done|].
      destruct He as [He|He]; [by left|]. right. intros z Hz.
      destruct l0 as [|c [|c' l0]];
        [done|by injection Hz as <-|simpl in Hlen; lia].
    - constructor. }
  induction l as [|cur l IH]; intros st st' last_timestamp last' H Hok.
  { injection H as <- <-. apply Hshort; [simpl; lia|done]. }
  destruct l as [|next rest].
  { injection H as <- <-. apply Hshort; [simpl; lia|done]. }
  cbn [walk_pairs] in H. inv_bind H. destruct x as [st1 last1].
  apply pair_step_Ok in Hx as [(Hskip & -> & ->)|(Hin & final & Hemit & ->)].
  - (* the pair is skipped *)
    assert (last_ok s e (next :: rest) last_timestamp) as Hok1.
    { destruct last_timestamp as [x|]; [|done]. simpl in *. split; [tauto|]. left. lia. }
    destruct (IH _ _ _ _ H Hok1)
      as (rs & t0 & Hsh & Hem & Htimes & Ht0 & Hlast & Hpost & Hreach).
    exists rs, t0.
    split; [intros base rs0 ?; by apply Hsh, observe_shape|].
    split; [eapply Forall_impl; [exact Hem|]; intros r; apply emitted_cons|].
    split; [done|]. split; [done|]. split; [|split; [done|]].
    + destruct Hlast as [[-> Hfirst]|(-> & -> & -> & Hout)]; [left|right].
      * split; [done|]. intros ->.
        destruct (Hfirst eq_refl) as (l1 & c & l2 & Hl & Hl2 & Hc & Hce & Hl1).
        exists (cur :: l1), c, l2. rewrite Hl. repeat split; try done; try lia.
        by apply Forall_cons.
      * repeat split. change (removelast (cur :: next :: rest))
          with (cur :: removelast (next :: rest)). by apply Forall_cons.
    + eapply Forall_impl; [exact Hreach|]. intros r. apply reached_cons.
  - (* records are emitted *)
    set (timestamp := default cur.1 last_timestamp) in *.
    apply emit_Ok in Hemit
      as (rs1 & Hfinal & Hlt & Hge & Htimes1 & Hall1 & Hsp1 & Hbp1 & Hsh1).
    assert (timestamp ≤ final ∧ next.1 ≤ final) as [Hts Hnext].
    { unfold spacing in *. destruct (decide (timestamp < next.1)) as [Hc|Hc].
      - apply Hlt in Hc. lia.
      - rewrite Hge in Hfinal by lia. simpl in Hfinal. lia. }
    assert (last_ok s e (next :: rest) (Some final)) as Hok1.
    { simpl. split; [lia|]. by right. }
    destruct (IH _ _ _ _ H Hok1)
      as (rs2 & t0 & Hsh & Hem & Htimes & Ht0 & Hlast & Hpost & Hreach).
    pose proof (Ht0 final eq_refl) as ->.
    assert (cur.1 ≤ timestamp) as Hcur.
    { subst timestamp. destruct last_timestamp as [x|]; simpl in *; [|lia].
      destruct Hok as [_ [?|?]]; lia. }
    exists (rs1 ++ rs2), timestamp.
    split; [intros base rs0 ?; rewrite app_assoc; by apply Hsh, Hsh1, observe_shape|].
    split.
    { apply Forall_app. split.
      - apply Forall_forall. intros r Hr.
        pose proof (proj1 (Forall_forall _ _) Hall1 r Hr) as (Hrt & Hrs & Hrb).
        assert (timestamp ≤ rec_time r) as Hrge.
        { apply (stamps_ge (length rs1)). rewrite <- Htimes1.
          apply list_elem_of_fmap. by exists r. }
        exists [], cur, next, rest. repeat split; try done; lia.
      - eapply Forall_impl; [exact Hem|]. intros r Hr. apply emitted_cons.
        by rewrite Hsp1, Hbp1 in Hr. }
    split.
    { rewrite map_app, length_app, stamps_app, Htimes1, Htimes. do 2 f_equal. lia. }
    split.
    { intros x Hx. subst timestamp. by rewrite Hx. }
    split; [|split; [done|]].
    + left. destruct Hlast as [[-> _]|(? & ? & _)]; [|done]. split.
      * f_equal. rewrite length_app. unfold spacing in *. lia.
      * intros Hnone. exists [], cur, (next :: rest). subst timestamp.
        rewrite Hnone in *. simpl in *. repeat split; try done; lia.
    + rewrite length_app. apply Forall_app. split.
      * apply Forall_forall. intros r Hr.
        pose proof (proj1 (Forall_forall _ _) Hall1 r Hr) as (Hrt & _).
        assert (timestamp ≤ rec_time r) as Hrge.
        { apply (stamps_ge (length rs1)). rewrite <- Htimes1.
          apply list_elem_of_fmap. by exists r. }
        assert (0 < length rs1)%nat as Hpos.
        { destruct rs1; [by apply elem_of_nil in Hr|simpl; lia]. }
        exists [], cur, next, rest, 0%nat. unfold spacing in *.
        split; [done|]. split; [lia|]. split; [lia|]. split; lia.
      * eapply Forall_impl; [exact Hreach|].
        intros r (l1 & c & nx & l2 & j & Hl & Hj & Hx & Hr & Hy).
        exists (cur :: l1), c, nx, l2, (length rs1 + j)%nat. unfold spacing in *.
        split; [by rewrite Hl|]. split; [lia|]. split; [lia|]. split; lia.
Qed.

(** The loop over the indices visits the adjacent pairs of the list. *)
Lemma walk_pairs_from (session : list Z) (pre l : list entry) :
  ∀ s, for_each (index_step session (pre ++ l))
         (seq (length pre) (length l - 1)) s
       = walk_pairs session l s.
Proof.
  revert pre. induction l as [|cur l IH]; intros pre s; [done|].
  destruct l as [|next rest]; [done|].
  replace (length (cur :: next :: rest) - 1)%nat with (S (length rest))
    by (simpl; lia).
  cbn [seq for_each walk_pairs]. unfold index_step at 1, index.
  rewrite lookup_app_r, Nat.sub_diag by lia.
  rewrite lookup_app_r by lia.
  replace (length pre + 1 - length pre)%nat with 1%nat by lia.
  cbn [lookup list_lookup bind].
  destruct (pair_step session cur next s) as [s'|err]; [|done]. cbn [bind].
  rewrite split_snoc.
  replace (S (length pre)) with (length (pre ++ [cur]))
    by (rewrite length_app; simpl; lia).
  replace (length rest) with (length (next :: rest) - 1)%nat by (simpl; lia).
  apply IH.
Qed.

Lemma walk_pairs_eq (session : list Z) (l : list entry) (s : gen_state * option Z) :
  walk session l s = walk_pairs session l s.
Proof. apply (walk_pairs_from session [] l). Qed.

(** For any session list, the walk only appends records. *)
Lemma pair_step_shape (session : list Z) (cur next : entry) (st st1 : gen_state)
    (last_timestamp last1 : option Z) :
  pair_step session cur next (st, last_timestamp) = Ok (st1, last1) →
  ∃ rs, ∀ base rs0, shape base st rs0 → shape base st1 (rs0 ++ rs).
Proof.
  unfold pair_step. intros H. inv_bind H.
  destruct (decide _) in H.
  { injection H as <- <-. exists []. intros base rs0. by rewrite app_nil_r. }
  inv_bind H. destruct (decide _) in H.
  { injection H as <- <-. exists []. intros base rs0. by rewrite app_nil_r. }
  inv_bind H. destruct x1 as [st2 final]. injection H as <- <-.
  apply emit_Ok in Hx1 as (rs & _ & _ & _ & _ & _ & _ & _ & Hsh).
  exists rs. intros base rs0 ?. by apply Hsh, observe_shape.
Qed.

Lemma walk_shape (session : list Z) (l : list entry) :
  ∀ (st st' : gen_state) (last_timestamp last' : option Z),
    walk_pairs session l (st, last_timestamp) = Ok (st', last') →
    ∃ rs, ∀ base rs0, shape base st rs0 → shape base st' (rs0 ++ rs).
Proof.
  induction l as [|cur l IH]; intros st st' last_timestamp last' H.
  { injection H as <- <-. exists []. intros base rs0. by rewrite app_nil_r. }
  destruct l as [|next rest].
  { injection H as <- <-. exists []. intros base rs0. by rewrite app_nil_r. }
  cbn [walk_pairs] in H. inv_bind H. destruct x as [st1 last1].
  apply pair_step_shape in Hx as [rs1 Hsh1].
  apply IH in H as [rs2 Hsh2].
  exists (rs1 ++ rs2). intros base rs0 ?. rewrite app_assoc. auto.
Qed.

Lemma shape_initial (st : gen_state) : chunk st = [] → shape (chunks st) st [].
Proof.
  intros Hc. exists []. rewrite app_nil_r, Hc. by repeat split.
Qed.

(** Closing the open chunk at the end of a session. *)
Lemma shape_flush (base : list (list record)) (st : gen_state) (rs : list record) :
  shape base st rs →
  ∃ K, chunks (flush_if_open st) = base ++ K ∧
       chunk (flush_if_open st) = [] ∧
       spo2 (flush_if_open st) = spo2 st ∧ bpm (flush_if_open st) = bpm st ∧
       session_chunks K rs.
Proof.
  intros (K & HK & HF & Hlen & Hnil & Hrs). unfold flush_if_open.
  destruct (chunk st) as [|r c] eqn:Hc.
  - rewrite (Hnil eq_refl) in *. exists []. by repeat split.
  - exists (K ++ [r :: c]). cbn [flush chunks chunk spo2 bpm].
    rewrite HK, Hc, <- app_assoc.
    split; [done|]. split; [done|]. split; [done|]. split; [done|]. split.
    { rewrite concat_app. simpl. by rewrite app_nil_r. }
    intros i c' [H|[Hge H]]%lookup_app_Some.
    + apply (Forall_lookup_1 _ _ _ _ HF) in H. unfold full, max_records in *.
      split; [lia|done].
    + apply list_lookup_singleton_Some in H as [Hi0 <-]. split.
      * unfold max_records in *. simpl in *. lia.
      * rewrite length_app. simpl. lia.
Qed.

Lemma full_chunks_length (K : list (list record)) :
  Forall full K →
  Z.of_nat (length (concat K)) = max_records * Z.of_nat (length K).
Proof.
  unfold full. induction 1 as [|c K Hc HF IH]; [done|].
  cbn [concat length]. rewrite length_app. lia.
Qed.

Lemma session_chunks_snoc (K : list (list record)) (c : list record)
    (rs : list record) :
  session_chunks (K ++ [c]) rs →
  Forall full K ∧ 1 ≤ Z.of_nat (length c) ≤ max_records ∧
  Z.of_nat (length rs) = max_records * Z.of_nat (length K) + Z.of_nat (length c).
Proof.
  intros [<- HK].
  assert (Forall full K) as HF.
  { apply Forall_lookup. intros i c' Hi.
    eapply HK; [by apply lookup_app_l_Some|].
    apply lookup_lt_Some in Hi. rewrite length_app. simpl. lia. }
  split; [done|]. split.
  - apply (HK (length K)). by rewrite lookup_app_r, Nat.sub_diag by lia.
  - rewrite concat_app, length_app, Nat2Z.inj_add, full_chunks_length by done.
    simpl. by rewrite app_nil_r.
Qed.

(** The number of chunks of a session is the number of its records divided by
    the capacity, rounded up. *)
Lemma session_chunks_count (K : list (list record)) (rs : list record) :
  session_chunks K rs →
  Z.of_nat (length K) = (Z.of_nat (length rs) + max_records - 1) `div` max_records.
Proof.
  destruct K as [|c K _] using rev_ind.
  { by intros [<- _]. }
  intros (_ & Hc & ->)%session_chunks_snoc.
  rewrite length_app, Nat2Z.inj_add. unfold max_records in *. simpl.
  apply Z.div_unique with (Z.of_nat (length c) - 1); lia.
Qed.

Lemma flush_if_open_id (st : gen_state) : chunk st = [] → flush_if_open st = st.
Proof. unfold flush_if_open. by intros ->. Qed.

(** One session, for any session list: its records fill chunks of their own. *)
Lemma session_pass_chunks (sorted_data : list entry) (st st' : gen_state)
    (session : list Z) :
  session_pass sorted_data st session = Ok st' →
  chunk st = [] →
  ∃ K rs, chunks st' = chunks st ++ K ∧ chunk st' = [] ∧ session_chunks K rs.
Proof.
  unfold session_pass. intros H Hc. inv_bind H. destruct x as [st1 last1].
  injection H as <-. rewrite walk_pairs_eq in Hx.
  apply walk_shape in Hx as [rs Hsh].
  destruct (shape_flush _ _ _ (Hsh _ _ (shape_initial st Hc)))
    as (K & HK & Hclosed & _ & _ & Hch).
  exists K, rs. by rewrite app_nil_l in Hch.
Qed.

(** One session [[s; e]]: where its records lie and what they carry. *)
Lemma session_pass_Ok (s e : Z) (sorted_data : list entry) (st st' : gen_state) :
  session_pass sorted_data st [s; e] = Ok st' →
  chunk st = [] →
  ∃ K rs t0,
    chunks st' = chunks st ++ K ∧ chunk st' = [] ∧ session_chunks K rs ∧
    Forall (emitted s e sorted_data (spo2 st) (bpm st)) rs ∧
    map rec_time rs = stamps (length rs) t0 ∧
    ((first_inside s e sorted_data t0 ∧
      (e < t0 + spacing * Z.of_nat (length rs) ∨
       ∀ z, last sorted_data = Some z →
            z.1 ≤ t0 + spacing * Z.of_nat (length rs))) ∨
     (rs = [] ∧ Forall (outside s e) (removelast sorted_data))) ∧
    Forall (reached e sorted_data t0 (length rs)) rs.
Proof.
  unfold session_pass. intros H Hc. inv_bind H. destruct x as [st1 last1].
  injection H as <-. rewrite walk_pairs_eq in Hx.
  apply walk_Ok in Hx
    as (rs & t0 & Hsh & Hem & Htimes & _ & Hlast & Hpost & Hreach); [|done].
  destruct (shape_flush _ _ _ (Hsh _ _ (shape_initial st Hc)))
    as (K & HK & Hclosed & _ & _ & Hch).
  exists K, rs, t0. rewrite app_nil_l in Hch.
  do 5 (split; [done|]). split; [|done].
  destruct Hlast as [[-> Hfirst]|(_ & _ & -> & Hout)]; [left|by right].
  split; [auto|]. by destruct (Hpost _ eq_refl) as [_ ?].
Qed.

(** All sessions: the open chunk is empty between sessions, and every chunk
    holds between one and [max_records] records. *)
Lemma passes_chunks (sorted_data : list entry) (sessions : list (list Z)) :
  ∀ st st', chunk st = [] →
    for_each (session_pass sorted_data) sessions st = Ok st' →
    chunk st' = [] ∧
    ∃ Ks, chunks st' = chunks st ++ Ks ∧
          Forall (λ c, 1 ≤ Z.of_nat (length c) ≤ max_records) Ks.
Proof.
  induction sessions as [|session sessions IH]; intros st st' Hc H.
  - injection H as <-. split; [done|]. exists []. by rewrite app_nil_r.
  - cbn [for_each] in H. inv_bind H.
    destruct (session_pass_chunks _ _ _ _ Hx Hc) as (K & rs & HK & Hc1 & _ & Hch).
    destruct (IH _ _ Hc1 H) as (Hc' & Ks & HKs & HF). split; [done|].
    exists (K ++ Ks). rewrite HKs, HK, <- app_assoc. split; [done|].
    apply Forall_app. split; [|done].
    apply Forall_lookup. intros i c Hi. by apply (Hch i c).
Qed.

Lemma session_output_inv (sessions : list (list Z)) (session : list Z)
    (data : gmap Z slots) (K : list (list record)) :
  session_output sessions session data K →
  ∃ st0 st1,
    for_each (session_pass (sorted_items data)) sessions initial = Ok st0 ∧
    chunk st0 = [] ∧
    session_pass (sorted_items data) st0 session = Ok st1 ∧
    chunks st1 = chunks st0 ++ K.
Proof.
  unfold session_output, divide_data_to_viatom_chunks.
  intros (before & Hb & H). cbn zeta in *.
  inv_bind Hb. injection Hb as <-. rewrite for_each_app, Hx in H.
  cbn [bind for_each] in H. inv_bind H. inv_bind Hx0. injection Hx0 as <-.
  injection H as H.
  destruct (passes_chunks _ _ initial _ eq_refl Hx) as [Hc0 _].
  destruct (session_pass_chunks _ _ _ _ Hx1 Hc0) as (_ & _ & _ & Hc1 & _).
  rewrite !flush_if_open_id in H by done. by exists x, x1.
Qed.

Lemma divide_chunks_bounded (sessions : list (list Z)) (data : gmap Z slots)
    (cs : list (list record)) :
  divide_data_to_viatom_chunks sessions data = Ok cs →
  Forall (λ c, 1 ≤ Z.of_nat (length c) ≤ max_records) cs.
Proof.
  intros H. unfold divide_data_to_viatom_chunks in H.
  cbn zeta in H. inv_bind H. injection H as <-.
  destruct (passes_chunks _ _ initial _ eq_refl Hx) as (Hc & Ks & HKs & HF).
  by rewrite flush_if_open_id, HKs.
Qed.

Lemma session_output_chunks (sessions : list (list Z)) (session : list Z)
    (data : gmap Z slots) (K : list (list record)) :
  session_output sessions session data K → session_chunks K (concat K).
Proof.
  intros (st0 & st1 & _ & Hc0 & Hpass & HK)%session_output_inv.
  destruct (session_pass_chunks _ _ _ _ Hpass Hc0) as (K' & rs & HK' & _ & Hch).
  rewrite HK in HK'. apply app_inv_head in HK' as ->.
  destruct Hch as [Hrs Hch]. by rewrite Hrs.
Qed.

(** *** The sorted table *)

#[local] Instance entry_le_total : Total entry_le.
Proof. intros a b. unfold entry_le. lia. Qed.

#[local] Instance entry_le_trans : Transitive entry_le.
Proof. intros a b c. unfold entry_le. lia. Qed.

Lemma sorted_items_elem (data : gmap Z slots) (k : Z) (sl : slots) :
  (k, sl) ∈ sorted_items data ↔ data !! k = Some sl.
Proof.
  unfold sorted_items. rewrite merge_sort_Permutation.
  apply elem_of_map_to_list.
Qed.

Lemma sorted_items_sorted (data : gmap Z slots) :
  StronglySorted entry_lt (sorted_items data).
Proof.
  assert (StronglySorted entry_le (sorted_items data)) as Hle
    by apply (StronglySorted_merge_sort _).
  assert (NoDup (sorted_items data).*1) as Hnd.
  { unfold sorted_items. rewrite merge_sort_Permutation.
    apply NoDup_fst_map_to_list. }
  revert Hle Hnd. generalize (sorted_items data). intros l.
  induction l as [|a l IH]; [constructor|].
  rewrite fmap_cons, NoDup_cons, !StronglySorted_cons.
  intros [Hl Hle] [Hnotin Hnd]. split; [|by apply IH].
  apply Forall_forall. intros b Hb.
  pose proof (proj1 (Forall_forall _ _) Hl b Hb) as Hab.
  unfold entry_le, entry_lt in *.
  destruct (decide (a.1 = b.1)) as [Heq|]; [|lia].
  exfalso. apply Hnotin. rewrite Heq. apply list_elem_of_fmap. by exists b.
Qed.

(** In a sorted list split at two adjacent entries, the entries before lie
    earlier and the entries after lie later. *)
Lemma sorted_split (l1 l2 : list entry) (cur next : entry) :
  StronglySorted entry_lt (l1 ++ cur :: next :: l2) →
  Forall (λ c, c.1 < cur.1) l1 ∧ cur.1 < next.1 ∧ Forall (λ c, next.1 < c.1) l2.
Proof.
  intros (Hcross & _ & Hr)%StronglySorted_app.
  apply StronglySorted_cons in Hr as [Hcur Hr].
  apply StronglySorted_cons in Hr as [Hnext _].
  apply Forall_cons in Hcur as [Hcn _]. split; [|done].
  apply Forall_forall. intros c Hc. apply (Hcross c cur Hc). by left.
Qed.

Lemma sorted_items_key (data : gmap Z slots) (c : entry) :
  c ∈ sorted_items data ↔ data !! c.1 = Some c.2.
Proof. destruct c as [k sl]. apply sorted_items_elem. Qed.

(** The entries of a split sorted table, by the position of their instant. *)
Lemma sorted_items_split (data : gmap Z slots) (l1 l2 : list entry)
    (cur next c : entry) :
  sorted_items data = l1 ++ cur :: next :: l2 →
  data !! c.1 = Some c.2 →
  (c ∈ l1 ∧ c.1 < cur.1) ∨ c = cur ∨ c = next ∨ (c ∈ l2 ∧ next.1 < c.1).
Proof.
  intros Hl Hc. apply sorted_items_key in Hc.
  pose proof (sorted_items_sorted data) as Hs. rewrite Hl in Hs, Hc.
  apply sorted_split in Hs as (H1 & _ & H2).
  rewrite Forall_forall in H1. rewrite Forall_forall in H2.
  apply elem_of_app in Hc as [Hc|Hc]; [left; auto|].
  apply elem_of_cons in Hc as [->|Hc]; [auto|].
  apply elem_of_cons in Hc as [->|Hc]; [auto|].
  right. right. right. auto.
Qed.

Lemma emitted_adjacent (data : gmap Z slots) (s e : Z) (sp0 bp0 : option Z)
    (r : record) :
  emitted s e (sorted_items data) sp0 bp0 r →
  ∃ t t', adjacent data t t' ∧ t ≤ rec_time r < t' ∧ s ≤ rec_time r ∧ t ≤ e.
Proof.
  intros (l1 & cur & next & l2 & Hl & Ht & Hs & He & _).
  exists cur.1, next.1. split; [|done].
  pose proof (sorted_items_sorted data) as Hsorted. rewrite Hl in Hsorted.
  apply sorted_split in Hsorted as (_ & Hlt & _).
  split.
  { exists cur.2. apply sorted_items_key. rewrite Hl.
    apply elem_of_app. right. by left. }
  split.
  { exists next.2. apply sorted_items_key. rewrite Hl.
    apply elem_of_app. right. right. by left. }
  split; [done|]. intros k [sl Hk] Hbetween.
  destruct (sorted_items_split data l1 l2 cur next (k, sl) Hl Hk)
    as [[_ ?]|[?|[?|[_ ?]]]]; simplify_eq/=; lia.
Qed.



Lemma running_none (field : slots → option Z) (r0 : option Z) (es : list entry) :
  Forall (λ c, field c.2 = None) es → running field r0 es = r0.
Proof.
  revert r0. induction es as [|c es IH]; intros r0 Hes; [done|].
  apply Forall_cons in Hes as [Hc Hes]. rewrite running_cons, Hc. by apply IH.
Qed.



Lemma first_inside_data (data : gmap Z slots) (s e t0 : Z) :
  first_inside s e (sorted_items data) t0 →
  is_Some (data !! t0) ∧ s ≤ t0 ≤ e ∧
  (∀ k, is_Some (data !! k) → s ≤ k → t0 ≤ k) ∧
  (∃ k, is_Some (data !! k) ∧ t0 < k).
Proof.
  intros (l1 & cur & l2 & Hl & Hl2 & <- & Hin & Hout).
  pose proof (sorted_items_sorted data) as Hsorted. rewrite Hl in Hsorted.
  apply StronglySorted_app in Hsorted as (Hcross & _ & Hs).
  apply StronglySorted_cons in Hs as [Hlater _].
  rewrite Forall_forall in Hlater. rewrite Forall_forall in Hout.
  assert (cur ∈ sorted_items data) as Hcur.
  { rewrite Hl. apply elem_of_app. right. by left. }
  split; [exists cur.2; by apply sorted_items_key|]. split; [done|]. split.
  - intros k [sl Hk] Hsk. apply sorted_items_elem in Hk. rewrite Hl in Hk.
    apply elem_of_app in Hk as [Hk|Hk].
    + pose proof (Hcross _ cur Hk ltac:(by left)) as Hlt.
      destruct (Hout _ Hk) as [?|?]; unfold entry_lt in *; simpl in *; lia.
    + apply elem_of_cons in Hk as [<-|Hk]; [done|].
      specialize (Hlater _ Hk). unfold entry_lt in *. simpl in *. lia.
  - destruct l2 as [|c l2]; [done|]. exists c.1. split.
    + exists c.2. apply sorted_items_key. rewrite Hl.
      apply elem_of_app. right. right. by left.
    + apply (Hlater c). by left.
Qed.

Lemma sorted_items_last (data : gmap Z slots) (z : entry) (k : Z) :
  last (sorted_items data) = Some z → is_Some (data !! k) → k ≤ z.1.
Proof.
  intros Hlast [sl Hk]. apply sorted_items_elem in Hk.
  pose proof (sorted_items_sorted data) as Hsorted.
  destruct (sorted_items data) as [|c l _] using rev_ind; [done|].
  rewrite last_snoc in Hlast. injection Hlast as ->.
  apply StronglySorted_app in Hsorted as (Hcross & _).
  apply elem_of_app in Hk as [Hk|Hk%list_elem_of_singleton]; [|by subst].
  pose proof (Hcross _ z Hk ltac:(by left)) as Hlt.
  unfold entry_lt in Hlt. simpl in Hlt. lia.
Qed.

(** With both running values assigned the [while] loop returns. *)
Lemma emit_total (st : gen_state) (timestamp end_timestamp : Z) :
  is_Some (spo2 st) → is_Some (bpm st) →
  ∃ st' final, emit st timestamp end_timestamp = Ok (st', final).
Proof.
  intros [s Hs] [b Hb].
  destruct (emit st timestamp end_timestamp) as [[st' final]|err] eqn:H; [eauto|].
  apply emit_Raise in H as (_ & _ & [?|?]); congruence.
Qed.

(** The records of one session of a run. *)
(** *** The running values between the sessions *)

Lemma running_default (field : slots → option Z) (es : list entry) :
  ∀ r0, running field r0 es
        = match running field None es with Some v => Some v | None => r0 end.
Proof.
  induction es as [|c es IH]; intros r0; [done|].
  change (running field r0 (c :: es))
    with (running field (carry r0 (field c.2)) es).
  change (running field None (c :: es))
    with (running field (carry None (field c.2)) es).
  rewrite IH, (IH (carry None (field c.2))).
  destruct (running field None es); unfold carry; by destruct (field c.2).
Qed.

Lemma running_idem (field : slots → option Z) (r0 : option Z) (es : list entry) :
  running field (running field r0 es) es = running field r0 es.
Proof.
  rewrite (running_default field es (running field r0 es)).
  rewrite (running_default field es r0). by destruct (running field None es).
Qed.



(** Each step of the walk observes its entry, whether it emits or not. *)
Lemma pair_step_running (session : list Z) (cur next : entry)
    (st st' : gen_state) (last_timestamp last' : option Z) :
  pair_step session cur next (st, last_timestamp) = Ok (st', last') →
  spo2 st' = carry (spo2 st) cur.2.1 ∧ bpm st' = carry (bpm st) cur.2.2.
Proof.
  unfold pair_step. intros H. inv_bind H.
  destruct (decide _) in H; [by injection H as <- <-|].
  inv_bind H. destruct (decide _) in H; [by injection H as <- <-|].
  inv_bind H. destruct x1 as [st2 final]. injection H as <- <-.
  by apply emit_Ok in Hx1 as (_ & _ & _ & _ & _ & _ & -> & -> & _).
Qed.

Lemma walk_pairs_running (session : list Z) (l : list entry) :
  ∀ (st st' : gen_state) (last_timestamp last' : option Z),
    walk_pairs session l (st, last_timestamp) = Ok (st', last') →
    spo2 st' = running fst (spo2 st) (removelast l) ∧
    bpm st' = running snd (bpm st) (removelast l).
Proof.
  induction l as [|cur l IH]; intros st st' last_timestamp last' H.
  { by injection H as <- <-. }
  destruct l as [|next rest]; [by injection H as <- <-|].
  cbn [walk_pairs] in H. inv_bind H. destruct x as [st1 last1].
  apply pair_step_running in Hx as [Hs Hb].
  apply IH in H as [-> ->].
  change (removelast (cur :: next :: rest))
    with (cur :: removelast (next :: rest)).
  unfold running. cbn [foldl]. by rewrite Hs, Hb.
Qed.

Lemma passes_running (l : list entry) (sessions : list (list Z)) :
  ∀ st st' : gen_state,
    for_each (session_pass l) sessions st = Ok st' →
    spo2 st' = match sessions with
               | [] => spo2 st
               | _ => running fst (spo2 st) (removelast l)
               end ∧
    bpm st' = match sessions with
              | [] => bpm st
              | _ => running snd (bpm st) (removelast l)
              end.
Proof.
  induction sessions as [|session sessions IH]; intros st st' H.
  { by injection H as <-. }
  cbn [for_each] in H. inv_bind H. unfold session_pass in Hx.
  rewrite walk_pairs_eq in Hx. inv_bind Hx. destruct x0 as [st1 last1].
  injection Hx as <-. apply walk_pairs_running in Hx0 as [Hs Hb].
  apply IH in H as [Hs' Hb'].
  assert (spo2 (flush_if_open st1) = spo2 st1 ∧
          bpm (flush_if_open st1) = bpm st1) as [Hfs Hfb].
  { unfold flush_if_open. by destruct (chunk st1). }
  rewrite Hfs, Hs in Hs'. rewrite Hfb, Hb in Hb'.
  destruct sessions; [done|]. by rewrite running_idem in Hs', Hb'.
Qed.

Lemma session_output_records (sessions : list (list Z)) (s e : Z)
    (data : gmap Z slots) (K : list (list record)) :
  session_output sessions [s; e] data K →
  ∃ t0,
    Forall (emitted s e (sorted_items data)
              (prior fst sessions (sorted_items data))
              (prior snd sessions (sorted_items data))) (concat K) ∧
    map rec_time (concat K) = stamps (length (concat K)) t0 ∧
    ((first_inside s e (sorted_items data) t0 ∧
      (e < t0 + spacing * Z.of_nat (length (concat K)) ∨
       ∀ z, last (sorted_items data) = Some z →
            z.1 ≤ t0 + spacing * Z.of_nat (length (concat K)))) ∨
     (concat K = [] ∧ Forall (outside s e) (removelast (sorted_items data)))) ∧
    Forall (reached e (sorted_items data) t0 (length (concat K))) (concat K).
Proof.
  intros (st0 & st1 & Hbefore & Hc0 & Hpass & HK)%session_output_inv.
  destruct (session_pass_Ok _ _ _ _ _ Hpass Hc0)
    as (K' & rs & t0 & HK' & _ & [Hrs _] & Hem & Htimes & Hcover & Hreach).
  rewrite HK in HK'. apply app_inv_head in HK' as ->. subst rs.
  apply passes_running in Hbefore as [Hs Hb]. exists t0.
  split; [|done]. unfold prior. rewrite Hs, Hb in Hem.
  by destruct sessions.
Qed.

(** *** The table seen from a split of its sorted list *)

Lemma split_adjacent (data : gmap Z slots) (l1 l2 : list entry)
    (cur next : entry) :
  sorted_items data = l1 ++ cur :: next :: l2 → adjacent data cur.1 next.1.
Proof.
  intros Hl.
  pose proof (sorted_items_sorted data) as Hsorted. rewrite Hl in Hsorted.
  apply sorted_split in Hsorted as (_ & Hlt & _).
  split.
  { exists cur.2. apply sorted_items_key. rewrite Hl.
    apply elem_of_app. right. by left. }
  split.
  { exists next.2. apply sorted_items_key. rewrite Hl.
    apply elem_of_app. right. right. by left. }
  split; [done|]. intros k [sl Hk] Hbetween.
  destruct (sorted_items_split data l1 l2 cur next (k, sl) Hl Hk)
    as [[_ ?]|[?|[?|[_ ?]]]]; simplify_eq/=; lia.
Qed.

Lemma adjacent_unique (data : gmap Z slots) (t t' u u' x : Z) :
  adjacent data t t' → adjacent data u u' →
  t ≤ x < t' → u ≤ x < u' → t = u ∧ t' = u'.
Proof.
  intros (Ht & Ht' & _ & Hnone) (Hu & Hu' & _ & Hnone') Hx Hx'.
  pose proof (Hnone u Hu). pose proof (Hnone' t Ht).
  pose proof (Hnone u' Hu'). pose proof (Hnone' t' Ht'). lia.
Qed.

Lemma first_inside_start (data : gmap Z slots) (s e t0 : Z) :
  first_inside s e (sorted_items data) t0 → session_start data s e t0.
Proof.
  intros (Hin & Hse & Hmin & Hlater)%first_inside_data.
  split; [done|]. split; [done|]. by split.
Qed.

Lemma session_start_unique (data : gmap Z slots) (s e t0 t1 : Z) :
  session_start data s e t0 → session_start data s e t1 → t0 = t1.
Proof.
  intros (H0 & ? & _ & Hmin0) (H1 & ? & _ & Hmin1).
  pose proof (Hmin0 t1 H1). pose proof (Hmin1 t0 H0). lia.
Qed.

Lemma sorted_items_snoc (data : gmap Z slots) (k : Z) :
  is_Some (data !! k) →
  ∃ z, sorted_items data = removelast (sorted_items data) ++ [z] ∧
       last (sorted_items data) = Some z.
Proof.
  intros [sl Hk%sorted_items_elem].
  destruct (last (sorted_items data)) as [z|] eqn:Hlast.
  - exists z. split; [|done]. apply last_Some in Hlast as [l' Hl'].
    by rewrite Hl', removelast_last.
  - apply last_None in Hlast. rewrite Hlast in Hk. by apply elem_of_nil in Hk.
Qed.

Lemma outside_no_start (data : gmap Z slots) (s e t0 : Z) :
  Forall (outside s e) (removelast (sorted_items data)) →
  ¬ session_start data s e t0.
Proof.
  intros Hout ([sl Ht0] & Hin & (k & Hk & Hlt) & _).
  destruct (sorted_items_snoc data k Hk) as (z & Hl & Hlast).
  pose proof (sorted_items_last data z k Hlast Hk) as Hkz.
  apply sorted_items_elem in Ht0. rewrite Hl in Ht0.
  apply elem_of_app in Ht0 as [Ht0|Ht0%list_elem_of_singleton].
  - rewrite Forall_forall in Hout. destruct (Hout _ Ht0); simpl in *; lia.
  - subst z. simpl in *. lia.
Qed.

(** *** The value that a record carries *)




Lemma stamps_last (n : nat) (t x : Z) :
  last (stamps n t) = Some x → x + spacing = t + spacing * Z.of_nat n.
Proof.
  rewrite last_lookup, stamps_length. intros Hx.
  destruct n as [|n]; [done|]. cbn [Init.Nat.pred] in Hx.
  rewrite stamps_lookup in Hx by lia. injection Hx as <-. lia.
Qed.

(** The walk raises when it reaches the first entry inside the session
    before any entry has supplied the heart rate. *)
Lemma walk_unbound (s e : Z) (l1 l2 : list entry) (cur next : entry) :
  ∀ st : gen_state,
    Forall (outside s e) l1 → s ≤ cur.1 ≤ e → cur.1 < next.1 →
    running snd (bpm st) (l1 ++ [cur]) = None →
    walk_pairs [s; e] (l1 ++ cur :: next :: l2) (st, None)
    = Raise UnboundLocalError.
Proof.
  induction l1 as [|c l1 IH]; intros st Hout Hin Hlt Hrun.
  - cbn [app walk_pairs]. unfold pair_step.
    cbn [index lookup list_lookup bind].
    rewrite !decide_False by lia.
    assert (emit (observe cur.2 st) cur.1 next.1 = Raise UnboundLocalError) as ->;
      [|done].
    apply emit_Raise. split; [done|]. split; [done|]. by right.
  - apply Forall_cons in Hout as [Hc Hout].
    assert (∃ x rest, l1 ++ cur :: next :: l2 = x :: rest) as (x & rest & Hx).
    { destruct l1; simpl; eauto. }
    change ((c :: l1) ++ cur :: next :: l2) with (c :: (l1 ++ cur :: next :: l2)).
    cbn [walk_pairs]. rewrite Hx.
    assert (pair_step [s; e] c x (st, None) = Ok (observe c.2 st, None)) as ->.
    { unfold pair_step. cbn [index lookup list_lookup bind].
      destruct Hc as [Hc|Hc].
      - by rewrite decide_True by done.
      - rewrite decide_False by lia. by rewrite decide_True by lia. }
    cbn [bind]. rewrite <- Hx. by apply IH.
Qed.

Lemma divide_unbound (s e t0 : Z) (sessions : list (list Z)) (data : gmap Z slots) :
  first_inside s e (sorted_items data) t0 →
  (∀ u v, observed snd data u v → t0 < u) →
  divide_data_to_viatom_chunks ([s; e] :: sessions) data = Raise UnboundLocalError.
Proof.
  intros (l1 & cur & l2 & Hl & Hl2 & <- & Hin & Hout) Hlater.
  destruct l2 as [|next l2]; [done|].
  pose proof (sorted_items_sorted data) as Hsorted. rewrite Hl in Hsorted.
  apply sorted_split in Hsorted as (Hbefore & Hlt & _).
  unfold divide_data_to_viatom_chunks. cbn zeta. cbn [for_each].
  unfold session_pass at 1. rewrite walk_pairs_eq, Hl.
  rewrite (walk_unbound s e l1 l2 cur next initial); [done..|].
  apply running_none, Forall_forall. intros c Hc.
  destruct (snd c.2) as [v|] eqn:Hv; [|done]. exfalso.
  assert (t0' : cur.1 < c.1).
  { apply (Hlater c.1 v). exists c.2. split; [|done].
    apply sorted_items_key. rewrite Hl, split_snoc. apply elem_of_app. by left. }
  apply elem_of_app in Hc as [Hc|Hc%list_elem_of_singleton]; [|subst; lia].
  rewrite Forall_forall in Hbefore. specialize (Hbefore c Hc). lia.
Qed.

End ChunkFacts.

(** * The claims *)

Import Viatom ViatomFacts Chunks ChunkFacts.

(** C3. Every record of a written file occupies five bytes from offset
    [40 + 5 * i]: when its SpO2 value is at most 61 they are [0xFF], the
    heart-rate byte, [0xFF, 0, 0]; otherwise they are [min(SpO2, 99)], the
    heart-rate byte and three zero bytes.  So 61 is written as the marker, 62
    as itself and 150 as 99. *)
Theorem record_layout :
  (∀ (fields : Z → civil) (data : list record) (f : file) (i : nat) (r : record),
     write_to_viatom_file fields data = Ok f →
     data !! i = Some r →
     slice (40 + 5 * i) 5 (content f) =
       if decide (rec_spo2 r ≤ 61)
       then [255; rec_bpm r; 255; 0; 0]
       else [Z.min (rec_spo2 r) 99; rec_bpm r; 0; 0; 0]) ∧
  (∀ t hr : Z, 0 ≤ hr ≤ 255 →
     encode_record (t, 61, hr) = Ok [255; hr; 255; 0; 0] ∧
     encode_record (t, 62, hr) = Ok [62; hr; 0; 0; 0] ∧
     encode_record (t, 150, hr) = Ok [99; hr; 0; 0; 0]).
Proof.
  split.
  - intros fields data f i r Hw Hi. by rewrite (slice_record fields data f i r).
  - intros t hr Hhr. repeat split; by apply encode_record_Ok.
Qed.

Lemma record_layout_witness :
  write_to_viatom_file new_year_2024 [(3661, 61, 70); (3665, 62, 71); (3669, 150, 72)]
    = Ok {| stamp := 3661;
            content := [5; 0; 232; 7; 1; 1; 1; 1; 1; 55; 0; 0; 0; 12; 0]
                       ++ replicate 25 0
                       ++ [255; 70; 255; 0; 0; 62; 71; 0; 0; 0; 99; 72; 0; 0; 0] |} ∧
  slice 50 5 ([5; 0; 232; 7; 1; 1; 1; 1; 1; 55; 0; 0; 0; 12; 0]
              ++ replicate 25 0
              ++ [255; 70; 255; 0; 0; 62; 71; 0; 0; 0; 99; 72; 0; 0; 0])
    = [99; 72; 0; 0; 0].
Proof.
  split; [reflexivity|].
  exact (proj1 record_layout new_year_2024
           [(3661, 61, 70); (3665, 62, 71); (3669, 150, 72)] _ 2%nat (3669, 150, 72)
           eq_refl eq_refl).
Defined.

(** C7. In a written file of [n] records, with [1 ≤ n ≤ 4095], bytes 9-12
    read as a little-endian integer give [5 * n + 40], bytes 13-14 give
    [4 * n], and the file is [5 * n + 40] bytes long.  Such a file is written
    whenever the calendar fields of the first record and all heart rates fit
    their bytes. *)
Theorem header_round_trip :
  (∀ (fields : Z → civil) (data : list record) (f : file),
     1 ≤ Z.of_nat (length data) ≤ 4095 →
     write_to_viatom_file fields data = Ok f →
     le_decode (slice 9 4 (content f)) = 5 * Z.of_nat (length data) + 40 ∧
     le_decode (slice 13 2 (content f)) = 4 * Z.of_nat (length data) ∧
     Z.of_nat (length (content f)) = 5 * Z.of_nat (length data) + 40) ∧
  (∀ (fields : Z → civil) (data : list record) (first : record),
     data !! 0%nat = Some first →
     Z.of_nat (length data) ≤ 4095 →
     fits_header (fields (rec_time first)) →
     Forall (λ r, 0 ≤ rec_bpm r ≤ 255) data →
     ∃ f, write_to_viatom_file fields data = Ok f).
Proof.
  split; [|apply write_to_viatom_file_fits].
  intros fields data f Hn
    (first & header & _ & _ & Hh & _ & _ & Hc)%write_to_viatom_file_Ok.
  pose proof (write_header_length _ _ _ _ Hh) as Hlen.
  apply write_header_Ok in Hh as (date & size & duration & -> & Hd & Hs & Hdur).
  apply pack_I_Ok in Hs as (_ & Hs & Hsd).
  apply pack_H_Ok in Hdur as (_ & Hdur & Hdd).
  rewrite Hc. repeat split.
  - rewrite <- !app_assoc, slice_app_length by done. lia.
  - rewrite (app_assoc date size), <- !app_assoc, (app_assoc date size).
    rewrite slice_app_length; [lia| |done]. rewrite length_app. lia.
  - rewrite length_app, Hlen, record_bodies_length. lia.
Qed.

Lemma header_round_trip_witness :
  le_decode (slice 9 4 (content {| stamp := 3661;
            content := [5; 0; 232; 7; 1; 1; 1; 1; 1; 55; 0; 0; 0; 12; 0]
                       ++ replicate 25 0
                       ++ [255; 70; 255; 0; 0; 62; 71; 0; 0; 0; 99; 72; 0; 0; 0] |}))
    = 5 * 3 + 40.
Proof.
  exact (proj1 (proj1 header_round_trip new_year_2024
           [(3661, 61, 70); (3665, 62, 71); (3669, 150, 72)] _
           ltac:(simpl; lia) eq_refl)).
Defined.

(** C2. Every chunk that the generator returns holds between 1 and 4095
    records.  The records of one session fill [⌈n / 4095⌉] chunks of their
    own, all of them full except possibly the last; a session of 20000
    records gives four chunks of 4095 records and one of 3620. *)
Theorem chunk_sizes :
  (∀ (sessions : list (list Z)) (data : gmap Z slots) (cs : list (list record)),
     divide_data_to_viatom_chunks sessions data = Ok cs →
     Forall (λ c, 1 ≤ Z.of_nat (length c) ≤ 4095) cs) ∧
  (∀ (sessions : list (list Z)) (session : list Z) (data : gmap Z slots)
     (K : list (list record)),
     session_output sessions session data K →
     Forall (λ c, 1 ≤ Z.of_nat (length c) ≤ 4095) K ∧
     Z.of_nat (length K) = (Z.of_nat (length (concat K)) + 4094) `div` 4095 ∧
     ∀ (i : nat) c, K !! i = Some c → (S i < length K)%nat →
                    Z.of_nat (length c) = 4095) ∧
  (∃ K : list (list record),
     session_output [] [0; 0]
       {[ 0 := (Some 95, Some 70); 80000 := (None, Some 71) ]} K ∧
     Z.of_nat (length (concat K)) = 20000 ∧
     (λ c, Z.of_nat (length c)) <$> K = [4095; 4095; 4095; 4095; 3620]).
Proof.
  split; [|split].
  - apply divide_chunks_bounded.
  - intros sessions session data K Hout%session_output_chunks.
    pose proof (session_chunks_count _ _ Hout) as Hcount.
    destruct Hout as [_ Hout]. unfold full, max_records in *.
    split; [|split].
    + apply Forall_lookup. intros i c Hi. by apply (Hout i c).
    + rewrite Hcount. f_equal. lia.
    + intros i c Hi Hlt. by apply (Hout i c).
  - set (data := {[ 0 := (Some 95, Some 70); 80000 := (None, Some 71) ]} : gmap Z slots).
    assert (sorted_items data
            = [(0, (Some 95, Some 70)); (80000, (None, Some 71))]) as Hsd
      by (vm_compute; reflexivity).
    set (st0 := observe (Some 95, Some 70) initial).
    destruct (emit_total st0 0 80000) as (st1 & final & Hemit); [by eexists..|].
    destruct (emit_Ok _ _ _ _ _ Hemit)
      as (rs & Hfinal & Hin & _ & _ & _ & _ & _ & Hsh).
    destruct (Hin ltac:(lia)) as [Hbound _]. unfold spacing in *.
    assert (Z.of_nat (length rs) = 20000) as Hn by lia.
    destruct (shape_flush _ _ _ (Hsh _ _ (shape_initial st0 eq_refl)))
      as (K & HK & Hclosed & _ & _ & Hch).
    rewrite app_nil_l in Hch. simpl in HK.
    assert (session_output [] [0; 0] data K) as Hout.
    { exists []. split; [done|].
      unfold divide_data_to_viatom_chunks. cbn zeta. rewrite Hsd.
      cbn [app for_each]. unfold session_pass.
      rewrite walk_pairs_eq. cbn [walk_pairs].
      unfold pair_step. cbn [index lookup list_lookup bind fst snd].
      rewrite !decide_False by lia. fold st0. rewrite Hemit.
      cbn [bind fst snd]. by rewrite flush_if_open_id, HK. }
    exists K. split; [done|].
    pose proof (session_chunks_count _ _ Hch) as Hcount.
    destruct Hch as [Hrs Hch]. rewrite Hrs. split; [done|].
    rewrite Hn in Hcount. unfold full, max_records in *.
    change ((20000 + 4095 - 1) `div` 4095) with 5 in Hcount.
    destruct K as [|c1 [|c2 [|c3 [|c4 [|c5 [|c6 K]]]]]]; simpl in Hcount; try lia.
    pose proof (Hch 0%nat c1 eq_refl) as [_ H1].
    pose proof (Hch 1%nat c2 eq_refl) as [_ H2].
    pose proof (Hch 2%nat c3 eq_refl) as [_ H3].
    pose proof (Hch 3%nat c4 eq_refl) as [_ H4].
    simpl in H1, H2, H3, H4.
    assert (Z.of_nat (length c5) = 3620) as H5.
    { rewrite <- Hrs in Hn. simpl in Hn. rewrite !length_app in Hn.
      simpl in Hn. lia. }
    cbn [fmap list_fmap].
    rewrite (H1 ltac:(lia)), (H2 ltac:(lia)), (H3 ltac:(lia)), (H4 ltac:(lia)), H5.
    reflexivity.
Qed.

Lemma chunk_sizes_witness :
  Forall (λ c, 1 ≤ Z.of_nat (length c) ≤ 4095)
    [[(0, 95, 70); (4, 95, 70); (8, 95, 70)];
     [(600, 97, 70); (604, 97, 70); (608, 97, 70)]].
Proof.
  apply (proj1 chunk_sizes [[0; 0]; [600; 600]]
           {[ 0 := (Some 95, Some 70); 10 := (Some 96, None);
              600 := (Some 97, None); 609 := (None, Some 71) ]}).
  vm_compute. reflexivity.
Defined.

(** C8. The encoder raises its internal-invariant error exactly when the
    chunk has more than 4095 records, and never on a chunk that the generator
    returned. *)
Theorem too_long_error :
  (∀ (fields : Z → civil) (data : list record),
     write_to_viatom_file fields data = Raise RuntimeError ↔
     Z.of_nat (length data) > 4095) ∧
  (∀ (fields : Z → civil) (sessions : list (list Z)) (data : gmap Z slots)
     (cs : list (list record)) (c : list record),
     divide_data_to_viatom_chunks sessions data = Ok cs →
     c ∈ cs →
     write_to_viatom_file fields c ≠ Raise RuntimeError).
Proof.
  assert (∀ (fields : Z → civil) (data : list record),
     write_to_viatom_file fields data = Raise RuntimeError ↔
     Z.of_nat (length data) > 4095) as Hiff.
  { intros fields data. split.
    - intros [[_ ?]|[[? _]|[? _]]]%write_to_viatom_file_Raise; done.
    - intros Hlen. unfold write_to_viatom_file. by rewrite decide_True. }
  split; [done|].
  intros fields sessions data cs c Hcs Hc Hraise%Hiff.
  pose proof (divide_chunks_bounded sessions data cs Hcs) as Hall.
  rewrite Forall_forall in Hall. specialize (Hall c Hc).
  unfold max_records in Hall. lia.
Qed.

Lemma too_long_error_witness :
  write_to_viatom_file new_year_2024 [(0, 95, 70); (4, 95, 70); (8, 95, 70)]
  ≠ Raise RuntimeError.
Proof.
  apply (proj2 too_long_error new_year_2024 [[0; 0]; [600; 600]]
           {[ 0 := (Some 95, Some 70); 10 := (Some 96, None);
              600 := (Some 97, None); 609 := (None, Some 71) ]}
           [[(0, 95, 70); (4, 95, 70); (8, 95, 70)];
            [(600, 97, 70); (604, 97, 70); (608, 97, 70)]]).
  - vm_compute. reflexivity.
  - by left.
Defined.

(** C10. The generator is partial: when a record is built before any table
    entry has supplied the heart rate, the running variable is read
    unassigned and the generator raises instead of returning chunks.  This
    happens whenever the first table instant inside the first session has no
    heart-rate observation at or before it; a saturation sample at 0 and a
    single heart-rate sample at 10 reach this case through the alignment. *)
Theorem unbound_heart_rate :
  (∀ (st : gen_state) (timestamp end_timestamp : Z),
     timestamp < end_timestamp → bpm st = None →
     emit st timestamp end_timestamp = Raise UnboundLocalError) ∧
  (∀ (s e t0 : Z) (sessions : list (list Z)) (data : gmap Z slots),
     first_inside s e (sorted_items data) t0 →
     (∀ u v, observed snd data u v → t0 < u) →
     divide_data_to_viatom_chunks ([s; e] :: sessions) data
     = Raise UnboundLocalError) ∧
  Align.align_spo2_data [[(0, 95)]] [[(10, 70)]]
    = Ok ([[0; 0]], {[ 0 := (Some 95, None); 10 := (None, Some 70) ]}) ∧
  divide_data_to_viatom_chunks [[0; 0]]
    {[ 0 := (Some 95, None); 10 := (None, Some 70) ]}
    = Raise UnboundLocalError ∧
  export_spo2_as_viatom new_year_2024 [[(0, 95)]] [[(10, 70)]]
    = {| written := []; raised := Some UnboundLocalError |}.
Proof.
  split; [|split; [apply divide_unbound|by vm_compute]].
  intros st timestamp end_timestamp Hlt Hb. apply emit_Raise. auto.
Qed.

Lemma unbound_heart_rate_witness :
  emit {| chunks := []; chunk := []; spo2 := Some 95; bpm := None |} 0 10
  = Raise UnboundLocalError.
Proof.
  apply (proj1 unbound_heart_rate); [lia|reflexivity].
Defined.




(** C9. The records of a session are exactly 4 seconds apart, and each lies
    in the half-open interval between two adjacent instants of the table, at
    or after the session's start.  They begin at the first instant [t0] of
    the table within the session, the last instant of the table apart; when
    there is no such instant the session has no chunk.  The session's end is
    tested once for each pair of adjacent instants of the table, on the first
    instant of the records that is not before the earlier one: the instants
    of the records are exactly the [t0 + 4 * k] that lie between two adjacent
    instants [t ≤ t0 + 4 * k < t'] of the table such that some [t0 + 4 * j]
    with [t ≤ t0 + 4 * j] is no later than the session's end.  So the records
    do not cover exactly the session's range: they can run past its end, up
    to the next instant of the table, and they can stop before it. *)
Theorem session_timeline (sessions : list (list Z)) (s e : Z)
    (data : gmap Z slots) (K : list (list record)) :
  session_output sessions [s; e] data K →
  (∀ (i : nat) r r', concat K !! i = Some r → concat K !! S i = Some r' →
     rec_time r' = rec_time r + 4) ∧
  (∀ r, r ∈ concat K →
     ∃ t t', adjacent data t t' ∧ t ≤ rec_time r < t' ∧
             s ≤ rec_time r ∧ t ≤ e) ∧
  ((∀ t0, ¬ session_start data s e t0) → K = []) ∧
  (∀ t0, session_start data s e t0 →
     concat K ≠ [] ∧
     (∀ r, concat K !! 0%nat = Some r → rec_time r = t0) ∧
     (∀ g, g ∈ map rec_time (concat K) ↔
           on_grid t0 g ∧
           ∃ t t', adjacent data t t' ∧ t ≤ g < t' ∧
                   ∃ x, on_grid t0 x ∧ t ≤ x ≤ e)) ∧
  (∀ r, concat K !! 0%nat = Some r → session_start data s e (rec_time r)) ∧
  (∀ r, last (concat K) = Some r →
     e < rec_time r + 4 ∨ ∀ k, is_Some (data !! k) → k ≤ rec_time r + 4).
Proof.
  intros Hout.
  destruct (session_output_records _ _ _ _ _ Hout)
    as (t0 & Hem & Htimes & Hcover & Hreach).
  assert (∀ (i : nat) r, concat K !! i = Some r →
            rec_time r = t0 + spacing * Z.of_nat i) as Hat.
  { intros i r Hi.
    assert (map rec_time (concat K) !! i = Some (rec_time r)) as Hmi
      by (by rewrite list_lookup_fmap, Hi).
    rewrite Htimes, stamps_lookup in Hmi by (by apply lookup_lt_Some in Hi).
    by injection Hmi as <-. }
  assert (concat K ≠ [] →
          first_inside s e (sorted_items data) t0 ∧
          (e < t0 + spacing * Z.of_nat (length (concat K)) ∨
           ∀ z, last (sorted_items data) = Some z →
                z.1 ≤ t0 + spacing * Z.of_nat (length (concat K)))) as Hfull.
  { intros Hne. by destruct Hcover as [?|[? _]]. }
  split; [|split; [|split; [|split; [|split]]]].
  - intros i r r' Hi Hi'. rewrite (Hat _ _ Hi), (Hat _ _ Hi').
    unfold spacing. lia.
  - intros r Hr. rewrite Forall_forall in Hem.
    eapply emitted_adjacent, Hem, Hr.
  - intros Hnone. destruct Hcover as [[Hfirst%first_inside_start _]|[Hnil _]].
    { by destruct (Hnone t0). }
    destruct (session_output_chunks _ _ _ _ Hout) as [_ Hsize].
    destruct K as [|c K']; [done|].
    destruct (Hsize 0%nat c eq_refl) as [Hc _].
    apply app_eq_nil in Hnil as [-> _]. simpl in Hc. lia.
  - intros t1 Hstart.
    destruct Hcover as [[Hfirst Hpost]|[_ Hout']];
      [|by destruct (outside_no_start _ _ _ t1 Hout')].
    pose proof (session_start_unique _ _ _ _ _ (first_inside_start _ _ _ _ Hfirst)
                  Hstart) as ->.
    destruct Hstart as (Ht1 & Hse & (k1 & Hk1 & Hlt1) & Hmin).
    destruct (sorted_items_snoc data k1 Hk1) as (z & _ & Hlast).
    pose proof (sorted_items_last data z k1 Hlast Hk1) as Hk1z.
    assert (Hpost' : e < t1 + spacing * Z.of_nat (length (concat K)) ∨
                     z.1 ≤ t1 + spacing * Z.of_nat (length (concat K))).
    { destruct Hpost as [?|Hz]; [by left|right; by apply Hz]. }
    clear Hpost.
    assert (concat K ≠ []) as Hne.
    { intros Hnil. rewrite Hnil in Hpost'. unfold spacing in *.
      simpl in Hpost'. lia. }
    split; [done|]. split.
    { intros r Hr. rewrite (Hat _ _ Hr). unfold spacing. lia. }
    intros g. split.
    + intros Hg. change (map rec_time (concat K)) with (rec_time <$> concat K) in Hg.
      apply list_elem_of_fmap in Hg as (r & -> & Hr).
      pose proof Hr as (i & Hi)%list_elem_of_lookup_1.
      split; [exists (Z.of_nat i); split; [lia|by apply Hat]|].
      rewrite Forall_forall in Hreach.
      destruct (Hreach r Hr) as (l1 & cur & next & l2 & j & Hl & Hj & Hx & Hrt & Hy).
      exists cur.1, next.1. split; [by eapply split_adjacent|].
      split; [lia|]. exists (t1 + spacing * Z.of_nat j).
      split; [exists (Z.of_nat j); split; [lia|done]|lia].
    + intros ((k & Hk & ->) & t & t' & Hadj & Hg & x & (j & Hj & ->) & Hx).
      unfold spacing in *.
      assert (k < Z.of_nat (length (concat K))) as Hkn.
      { destruct (decide (k < Z.of_nat (length (concat K)))) as [|Hge]; [done|].
        exfalso. destruct Hpost' as [Hpast|Hend].
        - assert (Z.to_nat j < length (concat K))%nat as Hjn by lia.
          destruct (lookup_lt_is_Some_2 _ _ Hjn) as [rx Hrx].
          pose proof (Hat _ _ Hrx) as Hrxt.
          rewrite Forall_forall in Hreach.
          destruct (Hreach rx (list_elem_of_lookup_2 _ _ _ Hrx))
            as (l1 & cur & next & l2 & j' & Hl & Hj' & Hx' & Hrt & Hy).
          unfold spacing in *.
          destruct (adjacent_unique data t t' cur.1 next.1 (rec_time rx) Hadj
                      (split_adjacent _ _ _ _ _ Hl)) as [_ Heq]; lia.
        - destruct Hadj as (_ & Ht' & _).
          pose proof (sorted_items_last data z t' Hlast Ht'). lia. }
      rewrite Htimes. apply (list_elem_of_lookup_2 _ (Z.to_nat k)).
      rewrite stamps_lookup by lia. f_equal. unfold spacing. lia.
  - intros r Hr. destruct Hfull as [Hfirst _]; [by destruct (concat K)|].
    apply first_inside_start in Hfirst.
    rewrite (Hat _ _ Hr). unfold spacing.
    by replace (t0 + 4 * Z.of_nat 0) with t0 by lia.
  - intros r Hr. destruct Hfull as [_ Hend]; [by destruct (concat K)|].
    assert (rec_time r + spacing
            = t0 + spacing * Z.of_nat (length (concat K))) as Hy.
    { apply stamps_last. rewrite <- Htimes.
      change (map rec_time (concat K)) with (rec_time <$> concat K).
      by rewrite fmap_last, Hr. }
    rewrite <- Hy in Hend. unfold spacing in Hend.
    destruct Hend as [?|Hmax]; [by left|right].
    intros k Hk. destruct (last (sorted_items data)) as [z|] eqn:Hz.
    + pose proof (sorted_items_last data z k Hz Hk). specialize (Hmax z eq_refl). lia.
    + apply last_None in Hz. destruct Hk as [sl Hk%sorted_items_elem].
      rewrite Hz in Hk. by apply elem_of_nil in Hk.
Qed.

Lemma session_timeline_witness :
  rec_time (4, 95, 70) = rec_time (0, 95, 70) + 4.
Proof.
  assert (session_output [] [0; 0]
            {[ 0 := (Some 95, Some 70); 12 := (None, Some 71) ]}
            [[(0, 95, 70); (4, 95, 70); (8, 95, 70)]]) as Hout.
  { exists []. split; vm_compute; reflexivity. }
  exact (proj1 (session_timeline [] 0 0 _ _ Hout) 0%nat (0, 95, 70) (4, 95, 70)
           eq_refl eq_refl).
Defined.

(** C9, as stated, fails: the retained session that consists of the single
    instant 0 yields records at 4 and 8, after its end, up to the next instant
    of the table.  The records need not reach the next instant of the table
    either: those of the retained session from 0 to 10 stop at 8, because the
    instant 12 that follows is past the session's end when the pair of table
    instants 10 and 50 is tested. *)
Lemma records_past_session_end :
  Align.align_spo2_data [[(0, 95)]] [[(0, 70); (12, 71)]]
    = Ok ([[0; 0]], {[ 0 := (Some 95, Some 70); 12 := (None, Some 71) ]}) ∧
  session_output [] [0; 0]
    {[ 0 := (Some 95, Some 70); 12 := (None, Some 71) ]}
    [[(0, 95, 70); (4, 95, 70); (8, 95, 70)]] ∧
  (8, 95, 70) ∈ concat [[(0, 95, 70); (4, 95, 70); (8, 95, 70)]] ∧
  0 < rec_time (8, 95, 70) ∧
  Align.align_spo2_data [[(0, 95); (10, 96)]] [[(0, 70); (50, 71)]]
    = Ok ([[0; 10]],
          {[ 0 := (Some 95, Some 70); 10 := (Some 96, None);
             50 := (None, Some 71) ]}) ∧
  session_output [] [0; 10]
    {[ 0 := (Some 95, Some 70); 10 := (Some 96, None); 50 := (None, Some 71) ]}
    [[(0, 95, 70); (4, 95, 70); (8, 95, 70)]].
Proof.
  split; [by vm_compute|]. split; [|split; [|split; [done|split]]].
  - exists []. split; vm_compute; reflexivity.
  - simpl. right. right. by left.
  - by vm_compute.
  - exists []. split; vm_compute; reflexivity.
Qed.

(** C1. On the saturation samples at 00:00, 00:01 and 00:10 the segmentation
    of section 4.1 gives the sessions [00:00, 00:01] and [00:10, 00:10]; the
    code closes the first session at 00:00, because it compares each sample
    with the start of the open session and closes the session at that start.
    In every result of the code each session but the last ends at its own
    start, and samples three minutes apart are split where the reference
    algorithm keeps them together. *)
Theorem segmentation_scenario :
  Align.align_spo2_data [[(0, 95); (60, 96); (600, 97)]] [[(0, 70); (900, 71)]]
    = Ok ([[0; 0]; [600; 600]],
          {[ 0 := (Some 95, Some 70); 60 := (Some 96, None);
             600 := (Some 97, None); 900 := (None, Some 71) ]}) ∧
  Align.reference_sessions [0; 60; 600] = [[0; 60]; [600; 600]] ∧
  Align.align_spo2_data [[(0, 95); (180, 96); (360, 97)]] [[(0, 70); (900, 71)]]
    = Ok ([[0; 0]; [360; 360]],
          {[ 0 := (Some 95, Some 70); 180 := (Some 96, None);
             360 := (Some 97, None); 900 := (None, Some 71) ]}) ∧
  Align.reference_sessions [0; 180; 360] = [[0; 360]] ∧
  (∀ (csv_files json_files : list (list sample)) (ss : list (list Z))
     (d : gmap Z slots) (i : nat) (session : list Z),
     Align.align_spo2_data csv_files json_files = Ok (ss, d) →
     ss !! i = Some session → (S i < length ss)%nat →
     ∃ a, session = [a; a]).
Proof.
  split; [by vm_compute|]. split; [by vm_compute|].
  split; [by vm_compute|]. split; [by vm_compute|].
  apply AlignFacts.align_spo2_data_Ok.
Qed.

(** C5. The alignment raises the missing-data error exactly when there is no
    saturation sample or no heart-rate sample, and it raises nothing else; the
    run then stops without writing a file.  When no session passes the
    post-filter the alignment returns an empty list of sessions, and the run
    ends without an error and without a file. *)
Theorem missing_data_error :
  (∀ (csv_files json_files : list (list sample)) (e : exn),
     Align.align_spo2_data csv_files json_files = Raise e ↔
     e = FileNotFoundError ∧ (concat csv_files = [] ∨ concat json_files = [])) ∧
  (∀ (fields : Z → civil) (csv_files json_files : list (list sample)),
     concat csv_files = [] ∨ concat json_files = [] →
     export_spo2_as_viatom fields csv_files json_files
     = {| written := []; raised := Some FileNotFoundError |}) ∧
  (∀ (fields : Z → civil) (csv_files json_files : list (list sample))
     (d : gmap Z slots),
     Align.align_spo2_data csv_files json_files = Ok ([], d) →
     export_spo2_as_viatom fields csv_files json_files
     = {| written := []; raised := None |}).
Proof.
  split; [apply AlignFacts.align_spo2_data_Raise|]. split.
  - intros fields csv_files json_files Hempty. unfold export_spo2_as_viatom.
    case_decide; [done|].
    assert (Align.align_spo2_data csv_files json_files = Raise FileNotFoundError)
      as -> by by apply AlignFacts.align_spo2_data_Raise.
    done.
  - intros fields csv_files json_files d Hok. unfold export_spo2_as_viatom.
    case_decide as Hnone; [|by rewrite Hok].
    assert (Align.align_spo2_data csv_files json_files = Raise FileNotFoundError)
      as Hraise; [|by rewrite Hraise in Hok].
    apply AlignFacts.align_spo2_data_Raise. split; [done|].
    destruct Hnone as [->%length_zero_iff_nil| ->%length_zero_iff_nil]; auto.
Qed.

Lemma missing_data_error_witness :
  export_spo2_as_viatom new_year_2024 [[(0, 95)]] [[]]
  = {| written := []; raised := Some FileNotFoundError |}.
Proof.
  apply (proj1 (proj2 missing_data_error) new_year_2024 [[(0, 95)]] [[]]).
  by right.
Defined.

(** C5, as stated, fails: with a saturation sample at 0 and the last
    heart-rate sample at 0 no session passes the post-filter, and yet the
    alignment returns and the run ends without an error. *)
Lemma empty_filter_is_no_error :
  Align.align_spo2_data [[(0, 95)]] [[(0, 70)]]
    = Ok ([], {[ 0 := (Some 95, Some 70) ]}) ∧
  export_spo2_as_viatom new_year_2024 [[(0, 95)]] [[(0, 70)]]
    = {| written := []; raised := None |}.
Proof. by vm_compute. Qed.

(** C6. In a written file the heart-rate byte of every record is the
    record's heart-rate value itself, which then lies between 0 and 255.  A
    value outside that range is not truncated: the encoder raises
    [struct.error]. *)
Theorem heart_rate_byte :
  (∀ (fields : Z → civil) (data : list record) (f : file) (i : nat) (r : record),
     write_to_viatom_file fields data = Ok f →
     data !! i = Some r →
     0 ≤ rec_bpm r ≤ 255 ∧
     content f !! (41 + 5 * i)%nat = Some (rec_bpm r)) ∧
  (∀ (fields : Z → civil) (data : list record),
     1 ≤ Z.of_nat (length data) ≤ 4095 →
     Exists (λ r, ¬ (0 ≤ rec_bpm r ≤ 255)) data →
     write_to_viatom_file fields data = Raise StructError).
Proof.
  split.
  - intros fields data f i r Hw Hi. split.
    + apply write_to_viatom_file_Ok in Hw as (_ & _ & _ & _ & _ & Hall & _).
      by apply (Forall_lookup_1 _ _ _ _ Hall Hi).
    + pose proof (slice_record fields data f i r Hw Hi) as Hslice.
      replace (41 + 5 * i)%nat with ((40 + 5 * i) + 1)%nat by lia.
      rewrite <- (slice_lookup _ 5) by lia.
      rewrite Hslice. apply record_body_bpm.
  - intros fields data Hlen Hex.
    destruct (write_to_viatom_file fields data) as [f|e] eqn:Hw.
    + apply write_to_viatom_file_Ok in Hw as (_ & _ & _ & _ & _ & Hall & _).
      apply Exists_exists in Hex as (r & Hr & Hbad).
      rewrite Forall_forall in Hall. by specialize (Hall r Hr).
    + apply write_to_viatom_file_Raise in Hw as [[_ ?]|[[_ ->]|[-> _]]];
        [lia|simpl in Hlen; lia|done].
Qed.

Lemma heart_rate_byte_witness :
  write_to_viatom_file new_year_2024 [(0, 95, 70); (4, 96, 300)]
  = Raise StructError.
Proof.
  apply (proj2 heart_rate_byte new_year_2024 [(0, 95, 70); (4, 96, 300)]).
  - simpl. lia.
  - right. left. simpl. lia.
Defined.

(** C6, as stated, fails: a heart rate of 256 makes the encoder raise. *)
Lemma heart_rate_256_raises :
  write_to_viatom_file new_year_2024 [(0, 95, 256)] = Raise StructError.
Proof. by vm_compute. Qed.

(** * Further properties *)

(** ** The binary encoder *)

Module ViatomMore.

Lemma land_255 (x : Z) : Z.land x 255 = x `mod` 256.
Proof. change 255 with (Z.ones 8). by apply Z.land_ones. Qed.

Lemma pack_H_bytes (x : Z) (bytes : list Z) :
  pack_H x = Ok bytes → Forall (λ b, 0 ≤ b ≤ 255) bytes.
Proof.
  unfold pack_H. case_decide; [|discriminate]. intros [= <-].
  rewrite land_255, Z.shiftr_div_pow2 by lia. change (2 ^ 8) with 256.
  repeat constructor; Z.to_euclidean_division_equations; lia.
Qed.

Lemma pack_I_bytes (x : Z) (bytes : list Z) :
  pack_I x = Ok bytes → Forall (λ b, 0 ≤ b ≤ 255) bytes.
Proof.
  unfold pack_I. case_decide; [|discriminate]. intros [= <-].
  rewrite !land_255, !Z.shiftr_div_pow2 by lia.
  change (2 ^ 8) with 256. change (2 ^ 16) with 65536.
  change (2 ^ 24) with 16777216.
  repeat constructor; Z.to_euclidean_division_equations; lia.
Qed.

Lemma record_body_bytes (r : record) :
  0 ≤ rec_bpm r ≤ 255 → Forall (λ b, 0 ≤ b ≤ 255) (record_body r).
Proof.
  intros Hhr. unfold record_body.
  case_decide; repeat constructor; lia.
Qed.

Section WriterMore.

Variable fields : Z → civil.

(** The header, byte by byte. *)
Lemma write_header_layout (first : record) (len : Z) (header : list Z)
    (c : civil) :
  c = fields (rec_time first) →
  write_header fields first len = Ok header →
  fits_header c ∧
  ∃ yr size duration,
    pack_H (year c) = Ok yr ∧
    pack_I (len * 5 + 40) = Ok size ∧
    pack_H (len * 4) = Ok duration ∧
    header = [5; 0] ++ yr ++ [month c; day c; hour c; minute c; second c]
             ++ size ++ duration ++ replicate 25 0.
Proof.
  intros -> H. unfold write_header in H.
  inv_bind H. inv_bind H. inv_bind H. inv_bind H. inv_bind H.
  injection H as <-.
  apply pack_Bs_Ok in Hx as [_ ->].
  apply pack_Bs_Ok in Hx1 as [Hclock ->].
  pose proof (pack_H_Ok _ _ Hx0) as (Hy & _).
  split; [by split|]. by exists x0, x2, x3.
Qed.

Lemma write_header_fits_iff (first : record) (len : Z) :
  0 ≤ len ≤ 4095 →
  (∃ header, write_header fields first len = Ok header) ↔
  fits_header (fields (rec_time first)).
Proof.
  intros Hlen. split.
  - intros [header H]. by eapply write_header_layout in H as [? _].
  - intros Hfits. by apply write_header_fits.
Qed.

End WriterMore.

End ViatomMore.

Import ViatomMore.

(** X1. The header of a written file holds the magic bytes 5 and 0, the year
    of the first record as a little-endian 16-bit integer, then its month,
    day, hour, minute and second, one byte each; bytes 15-39 are zero; the
    file is named after the first record's timestamp. *)
Theorem header_date_fields (fields : Z → civil) (data : list record) (f : file)
    (first : record) :
  write_to_viatom_file fields data = Ok f →
  data !! 0%nat = Some first →
  stamp f = rec_time first ∧
  slice 0 2 (content f) = [5; 0] ∧
  le_decode (slice 2 2 (content f)) = year (fields (rec_time first)) ∧
  slice 4 5 (content f)
  = [month (fields (rec_time first)); day (fields (rec_time first));
     hour (fields (rec_time first)); minute (fields (rec_time first));
     second (fields (rec_time first))] ∧
  slice 15 25 (content f) = replicate 25 0.
Proof.
  intros (first' & header & Hfirst & _ & Hh & _ & Hstamp & Hc)%write_to_viatom_file_Ok
    Hfirst'.
  rewrite Hfirst in Hfirst'. injection Hfirst' as ->.
  eapply write_header_layout in Hh
    as (_ & yr & size & duration & Hyr & Hs & Hd & Hheader); [|done].
  apply pack_H_Ok in Hyr as (_ & Hlyr & Hdyr).
  apply pack_I_Ok in Hs as (_ & Hls & _).
  apply pack_H_Ok in Hd as (_ & Hld & _).
  split; [done|]. rewrite Hc, Hheader.
  destruct yr as [|y0 [|y1 [|]]]; try done.
  destruct size as [|s0 [|s1 [|s2 [|s3 [|]]]]]; try done.
  destruct duration as [|d0 [|d1 [|]]]; try done.
Qed.

Lemma header_date_fields_witness :
  le_decode [232; 7] = 2024.
Proof.
  exact (proj1 (proj2 (proj2 (header_date_fields new_year_2024
           [(3661, 61, 70); (3665, 62, 71); (3669, 150, 72)] _ (3661, 61, 70)
           eq_refl eq_refl)))).
Defined.

(** X2. Every byte of a written file lies between 0 and 255. *)
Theorem file_bytes (fields : Z → civil) (data : list record) (f : file) :
  write_to_viatom_file fields data = Ok f →
  Forall (λ b, 0 ≤ b ≤ 255) (content f).
Proof.
  intros (first & header & _ & _ & Hh & Hall & _ & Hc)%write_to_viatom_file_Ok.
  rewrite Hc.
  eapply write_header_layout in Hh
    as ([_ Hclock] & yr & size & duration & Hyr & Hs & Hd & Hheader); [|done].
  rewrite Hheader.
  apply pack_H_bytes in Hyr. apply pack_I_bytes in Hs. apply pack_H_bytes in Hd.
  repeat (apply Forall_app; split); try done.
  - repeat constructor; lia.
  - by apply Forall_replicate.
  - apply Forall_concat, Forall_fmap. eapply Forall_impl; [done|].
    intros r Hr. by apply record_body_bytes.
Qed.

Lemma file_bytes_witness :
  Forall (λ b, 0 ≤ b ≤ 255)
    ([5; 0; 232; 7; 1; 1; 1; 1; 1; 55; 0; 0; 0; 12; 0]
     ++ replicate 25 0
     ++ [255; 70; 255; 0; 0; 62; 71; 0; 0; 0; 99; 72; 0; 0; 0]).
Proof.
  exact (file_bytes new_year_2024
           [(3661, 61, 70); (3665, 62, 71); (3669, 150, 72)] _ eq_refl).
Defined.

(** X3. The encoder writes a file exactly when the chunk has between 1 and
    4095 records, the calendar fields of its first record fit the header and
    every heart rate lies between 0 and 255; an empty chunk raises
    [IndexError]. *)
Theorem write_succeeds_iff :
  (∀ (fields : Z → civil) (data : list record),
     (∃ f, write_to_viatom_file fields data = Ok f) ↔
     ∃ first, data !! 0%nat = Some first ∧
              Z.of_nat (length data) ≤ 4095 ∧
              fits_header (fields (rec_time first)) ∧
              Forall (λ r, 0 ≤ rec_bpm r ≤ 255) data) ∧
  (∀ (fields : Z → civil) (data : list record),
     write_to_viatom_file fields data = Raise IndexError ↔ data = []).
Proof.
  split.
  - intros fields data. split.
    + intros [f (first & header & Hfirst & Hlen & Hh & Hall & _)%write_to_viatom_file_Ok].
      exists first. split; [done|]. split; [done|]. split; [|done].
      by eapply write_header_layout in Hh as [? _].
    + intros (first & Hfirst & Hlen & Hfits & Hall).
      by eapply write_to_viatom_file_fits.
  - intros fields data. split.
    + intros [[? _]|[[_ ?]|[? _]]]%write_to_viatom_file_Raise; done.
    + by intros ->.
Qed.

(** ** The alignment *)

Module AlignMore.
Import Align AlignSpec AlignFacts.

Lemma last_value_snoc (t : Z) (samples : list sample) (smp : sample) :
  last_value t (samples ++ [smp])
  = if decide (smp.1 = t) then Some smp.2 else last_value t samples.
Proof.
  unfold last_value. rewrite filter_app, filter_cons, filter_nil.
  case_decide; [by rewrite last_snoc|by rewrite app_nil_r].
Qed.

Lemma spo2_inserts_lookup (d : gmap Z slots) (samples : list sample) (t : Z) :
  spo2_inserts d samples !! t
  = match last_value t samples with
    | Some v => Some (Some v, (default (None, None) (d !! t)).2)
    | None => d !! t
    end.
Proof.
  induction samples as [|[t' v'] samples IH] using rev_ind; [done|].
  unfold spo2_inserts in *. rewrite foldl_snoc, last_value_snoc. simpl.
  unfold set_spo2 at 1. case_decide as Ht.
  - subst t'. rewrite lookup_insert_eq, IH.
    by destruct (last_value t samples).
  - by rewrite lookup_insert_ne.
Qed.

Lemma bpm_inserts_lookup (d : gmap Z slots) (samples : list sample) (t : Z) :
  bpm_inserts d samples !! t
  = match last_value t samples with
    | Some v => Some ((default (None, None) (d !! t)).1, Some v)
    | None => d !! t
    end.
Proof.
  induction samples as [|[t' v'] samples IH] using rev_ind; [done|].
  unfold bpm_inserts in *. rewrite foldl_snoc, last_value_snoc. simpl.
  unfold set_bpm at 1. case_decide as Ht.
  - subst t'. rewrite lookup_insert_eq, IH.
    by destruct (last_value t samples).
  - by rewrite lookup_insert_ne.
Qed.

Lemma merged_lookup (spo2s bpms : list sample) (t : Z) :
  bpm_inserts (spo2_inserts ∅ spo2s) bpms !! t = merged spo2s bpms t.
Proof.
  rewrite bpm_inserts_lookup, spo2_inserts_lookup, lookup_empty. unfold merged.
  by destruct (last_value t spo2s), (last_value t bpms).
Qed.

Lemma bpm_loop_data (samples : list sample) (st st' : bpm_state) :
  for_each bpm_step samples st = Ok st' →
  bpm_data st' = bpm_inserts (bpm_data st) samples.
Proof.
  revert st. induction samples as [|[t v] samples IH]; intros st H.
  - by injection H as <-.
  - cbn [for_each bpm_step bind] in H. by rewrite (IH _ H).
Qed.

Lemma far_after_trans (a b c : Z) : far_after a b → far_after b c → far_after a c.
Proof. unfold far_after, five_minutes. lia. Qed.

Lemma segmented_step (seen : list sample) (st st' : spo2_state) (smp : sample) :
  segmented seen st → spo2_step st smp = Ok st' →
  segmented (seen ++ [smp]) st'.
Proof.
  destruct smp as [timestamp value].
  intros [Hdata Hsess] H. unfold spo2_step in H.
  destruct Hsess as [(-> & Hnil & Hprev)|(cl & start & smp & Hss & Hsorted & Hin & Hlast & Hprev)].
  - rewrite Hnil in H. cbn [last bind] in H. injection H as <-.
    split; [cbn [data]; by rewrite Hdata|]. right.
    exists [], timestamp, (timestamp, value). cbn [sessions prev_timestamp].
    repeat split; try done.
    + repeat constructor.
    + apply Forall_singleton. simpl. by left.
  - rewrite Hss, last_snoc in H. cbn [index lookup list_lookup bind] in H.
    assert (∀ l, Forall (λ a, a ∈ seen.*1) l →
                 Forall (λ a, a ∈ (seen ++ [(timestamp, value)]).*1) l) as Hmono.
    { intros l Hl. eapply Forall_impl; [done|]. intros a Ha.
      rewrite fmap_app. apply elem_of_app. by left. }
    destruct (decide (timestamp - start > five_minutes)) as [Hgap|Hgap];
      cbn [bind] in H; injection H as <-;
      (split; [cbn [data]; unfold spo2_inserts in *;
               by rewrite foldl_snoc, Hdata|]); right.
    + exists (cl ++ [start]), timestamp, (timestamp, value).
      cbn [sessions prev_timestamp].
      rewrite append_to_last_snoc, fmap_app, last_snoc. split; [done|].
      split; [|split; [|done]].
      * apply StronglySorted_app. split; [|split; [done|repeat constructor]].
        intros a b Ha ->%list_elem_of_singleton.
        apply elem_of_app in Ha as [Ha| ->%list_elem_of_singleton]; [|done].
        apply far_after_trans with start; [|done].
        by apply (StronglySorted_app_1_elem_of _ _ _ _ _ Hsorted Ha), list_elem_of_singleton.
      * apply Forall_app. split; [by apply Hmono|].
        apply Forall_singleton. rewrite fmap_app. apply elem_of_app. right.
        by left.
    + exists cl, start, (timestamp, value). cbn [sessions prev_timestamp].
      rewrite last_snoc. repeat split; try done. by apply Hmono.
Qed.

Lemma segmented_loop (samples seen : list sample) (st st' : spo2_state) :
  segmented seen st → for_each spo2_step samples st = Ok st' →
  segmented (seen ++ samples) st'.
Proof.
  revert seen st. induction samples as [|smp samples IH]; intros seen st Hst H.
  - injection H as <-. by rewrite app_nil_r.
  - cbn [for_each] in H. inv_bind H.
    rewrite cons_middle, app_assoc.
    eapply IH; [|done]. by eapply segmented_step.
Qed.

Lemma StronglySorted_filter {A : Type} (R : relation A) (P : A → Prop)
    `{!∀ x, Decision (P x)} (l : list A) :
  StronglySorted R l → StronglySorted R (filter P l).
Proof.
  induction 1 as [|a l Hl IH Ha]; [constructor|].
  rewrite filter_cons. case_decide; [|done]. constructor; [done|].
  apply Forall_forall. intros b [_ Hb]%list_elem_of_filter.
  rewrite Forall_forall in Ha. by apply Ha.
Qed.

(** What the alignment returns: the table merged from the two streams, and
    the sessions of the first loop that the post-filter keeps. *)
Lemma align_spo2_data_structure (csv_files json_files : list (list sample))
    (ss : list (list Z)) (d : gmap Z slots) :
  align_spo2_data csv_files json_files = Ok (ss, d) →
  ∃ cl start prev last_bpm,
    d = bpm_inserts (spo2_inserts ∅ (concat csv_files)) (concat json_files) ∧
    ss = filter (covered last_bpm.1) ((closed_at <$> cl) ++ [[start; prev.1]]) ∧
    StronglySorted far_after (cl ++ [start]) ∧
    Forall (λ a, a ∈ (concat csv_files).*1) (cl ++ [start]) ∧
    last (concat csv_files) = Some prev ∧
    last (concat json_files) = Some last_bpm.
Proof.
  unfold align_spo2_data. rewrite for_each_concat. intros H.
  inv_bind H.
  assert (segmented [] {| sessions := []; data := ∅; prev_timestamp := None |})
    as Hinit by (split; [done|by left]).
  pose proof (segmented_loop (concat csv_files) [] _ _ Hinit Hx) as [Hdata Hsess].
  rewrite app_nil_l in Hdata, Hsess.
  destruct (decide (length (sessions x) = 0%nat)) as [|Hlen]; [done|].
  destruct Hsess as [(_ & Hnil & _)|(cl & start & prev & Hss & Hsorted & Hin & Hlast & Hprev)].
  { by rewrite Hnil in Hlen. }
  rewrite Hss, Hprev in H. unfold index at 1 in H.
  rewrite <- last_lookup, last_snoc in H. cbn [bind] in H.
  rewrite decide_True in H by done. cbn [read_local bind] in H.
  rewrite append_to_last_snoc in H. inv_bind H.
  rewrite for_each_concat in Hx0.
  pose proof (bpm_loop_data _ _ _ Hx0) as Hbdata.
  destruct (bpm_loop (concat json_files)
              {| bpm_data := data x; last_bpm_timestamp := None |})
    as (bst & Hbst & Hblast).
  rewrite Hx0 in Hbst. injection Hbst as <-.
  rewrite Hblast in H. cbn [last_bpm_timestamp] in H.
  destruct (last (concat json_files)) as [last_bpm|] eqn:Hjson; [|done].
  rewrite filter_loop in H.
  - injection H as <- <-. exists cl, start, prev, last_bpm.
    cbn [bpm_data] in Hbdata. rewrite Hbdata, Hdata. by repeat split.
  - apply Forall_app. split.
    + apply Forall_fmap, Forall_true. intros a. unfold closed_at. simpl. eauto.
    + apply Forall_singleton. eauto.
Qed.

Lemma last_value_elem (t : Z) (samples : list sample) :
  t ∈ samples.*1 → is_Some (last_value t samples).
Proof.
  intros (smp0 & Ht & Hin)%list_elem_of_fmap. unfold last_value.
  destruct (last (filter _ samples)) as [smp|] eqn:Hl; [by eexists|].
  apply last_None in Hl.
  assert (smp0 ∈ filter (λ smp : sample, smp.1 = t) samples) as Hf
    by by apply list_elem_of_filter.
  rewrite Hl in Hf. by apply elem_of_nil in Hf.
Qed.

(** The sessions that the alignment returns, all of them two-element lists. *)
Lemma align_sessions (csv_files json_files : list (list sample))
    (ss : list (list Z)) (d : gmap Z slots) :
  align_spo2_data csv_files json_files = Ok (ss, d) →
  StronglySorted session_far_after ss ∧
  ∃ last_bpm, last (concat json_files) = Some last_bpm ∧
    Forall (λ session, ∃ s e, session = [s; e] ∧ s ∈ (concat csv_files).*1 ∧
                              e < last_bpm.1) ss.
Proof.
  intros (cl & start & prev & last_bpm & _ & -> & Hsorted & Hin & _ & Hjson)
    %align_spo2_data_structure.
  apply StronglySorted_app in Hsorted as (Hcross & Hcl & _).
  apply Forall_app in Hin as [Hincl Hinstart].
  split.
  - apply StronglySorted_filter, StronglySorted_app.
    split; [|split; [|repeat constructor]].
    + intros a b (a' & -> & Ha)%list_elem_of_fmap ->%list_elem_of_singleton.
      apply (Hcross a' start Ha). by left.
    + by apply (StronglySorted_fmap _ far_after).
  - exists last_bpm. split; [done|].
    apply Forall_forall. intros session [Hcov Hs]%list_elem_of_filter.
    apply elem_of_app in Hs as [(a & -> & Ha)%list_elem_of_fmap
                               | ->%list_elem_of_singleton].
    + exists a, a. rewrite Forall_forall in Hincl.
      split; [done|]. split; [by apply Hincl|done].
    + exists start, prev.1. split; [done|]. split; [|exact Hcov].
      rewrite Forall_forall in Hinstart. apply Hinstart. by left.
Qed.

End AlignMore.

Import AlignSpec AlignMore.

(** X4. The alignment does not depend on how the samples are divided among the
    files: it is the alignment of the two concatenated streams. *)
Theorem align_file_boundaries (csv_files json_files : list (list sample)) :
  Align.align_spo2_data csv_files json_files
  = Align.align_spo2_data [concat csv_files] [concat json_files].
Proof.
  unfold Align.align_spo2_data. rewrite !AlignFacts.for_each_concat.
  cbn [concat]. rewrite app_nil_r.
  destruct (for_each Align.spo2_step (concat csv_files) _) as [st|]; [|done].
  cbn [bind]. case_decide; [done|].
  destruct (index _ _) as [last_session|]; [|done]. cbn [bind].
  match goal with |- bind ?m _ = _ => destruct m as [ss|]; [|done] end.
  cbn [bind]. rewrite !AlignFacts.for_each_concat.
  cbn [concat]. by rewrite app_nil_r.
Qed.

(** X5. The table that the alignment returns holds, at every instant, the
    value of the last saturation sample and of the last heart-rate sample at
    that instant, and holds no entry at an instant without a sample. *)
Theorem merged_table (csv_files json_files : list (list sample))
    (ss : list (list Z)) (d : gmap Z slots) (t : Z) :
  Align.align_spo2_data csv_files json_files = Ok (ss, d) →
  d !! t = merged (concat csv_files) (concat json_files) t.
Proof.
  intros (cl & start & prev & last_bpm & -> & _)%align_spo2_data_structure.
  apply merged_lookup.
Qed.

Lemma merged_table_witness :
  ({[ 0 := (Some 96, Some 70); 60 := (Some 97, None); 900 := (None, Some 71) ]}
     : gmap Z slots) !! 0
  = merged [(0, 95); (0, 96); (60, 97)] [(0, 70); (900, 71)] 0.
Proof.
  apply (merged_table [[(0, 95); (0, 96)]; [(60, 97)]] [[(0, 70); (900, 71)]]
           [[0; 60]]).
  vm_compute. reflexivity.
Defined.

(** X6. Every session that the alignment returns is a pair [[start, end]]
    whose start is the instant of a saturation sample, where the table holds a
    saturation value, and whose end lies strictly before the last heart-rate
    instant of the stream; each session starts more than five minutes after
    the start of every session before it. *)
Theorem retained_sessions (csv_files json_files : list (list sample))
    (ss : list (list Z)) (d : gmap Z slots) :
  Align.align_spo2_data csv_files json_files = Ok (ss, d) →
  (∃ last_bpm, last (concat json_files) = Some last_bpm ∧
     ∀ session, session ∈ ss →
       ∃ s e, session = [s; e] ∧ s ∈ (concat csv_files).*1 ∧
              (∃ v hr, d !! s = Some (Some v, hr)) ∧ e < last_bpm.1) ∧
  (∀ (i j : nat) s e s' e', (i < j)%nat →
     ss !! i = Some [s; e] → ss !! j = Some [s'; e'] → s' - s > 300).
Proof.
  intros H. destruct (align_sessions _ _ _ _ H) as (Hsorted & last_bpm & Hjson & Hall).
  split.
  - exists last_bpm. split; [done|]. intros session Hs.
    rewrite Forall_forall in Hall.
    destruct (Hall session Hs) as (s & e & -> & Hin & He).
    exists s, e. repeat split; try done.
    apply align_spo2_data_structure in H as (_ & _ & _ & _ & -> & _).
    rewrite merged_lookup. unfold merged.
    destruct (last_value_elem _ _ Hin) as [v ->].
    exists v, (last_value s (concat json_files)).
    by destruct (last_value s (concat json_files)).
  - intros i j s e s' e' Hij Hi Hj.
    pose proof (take_drop_middle _ _ _ Hi) as Hsplit.
    rewrite <- Hsplit in Hsorted.
    apply StronglySorted_app in Hsorted as (_ & _ & Hsorted).
    apply StronglySorted_cons in Hsorted as [Hlater _].
    rewrite Forall_forall in Hlater.
    apply (Hlater [s'; e']).
    apply list_elem_of_lookup. exists (j - S i)%nat.
    rewrite lookup_drop. rewrite <- Hj. f_equal. lia.
Qed.

Lemma retained_sessions_witness :
  ∃ last_bpm, last (concat [[(0, 70); (900, 71)]]) = Some last_bpm ∧
    ∀ session, session ∈ [[0; 0]; [600; 600]] →
      ∃ s e, session = [s; e] ∧
             s ∈ (concat [[(0, 95); (60, 96); (600, 97)]]).*1 ∧
             (∃ v hr,
                ({[ 0 := (Some 95, Some 70); 60 := (Some 96, None);
                    600 := (Some 97, None); 900 := (None, Some 71) ]}
                   : gmap Z slots) !! s = Some (Some v, hr)) ∧
             e < last_bpm.1.
Proof.
  apply (retained_sessions [[(0, 95); (60, 96); (600, 97)]] [[(0, 70); (900, 71)]]).
  vm_compute. reflexivity.
Defined.

(** ** The chunk generator *)

Module ChunkMore.
Import Chunks ChunkSpec ChunkFacts.

Lemma sorted_items_length (data : gmap Z slots) :
  length (sorted_items data) = size data.
Proof.
  unfold sorted_items. rewrite merge_sort_Permutation.
  apply length_map_to_list.
Qed.

(** A table of fewer than two instants has no pair to walk. *)
Lemma walk_short (session : list Z) (l : list entry) (s : gen_state * option Z) :
  (length l ≤ 1)%nat → walk session l s = Ok s.
Proof.
  intros Hl. unfold walk.
  by replace (length l - 1)%nat with 0%nat by lia.
Qed.

Lemma passes_short (l : list entry) (sessions : list (list Z)) :
  (length l ≤ 1)%nat → for_each (session_pass l) sessions initial = Ok initial.
Proof.
  intros Hl. induction sessions as [|session sessions IH]; [done|].
  cbn [for_each]. unfold session_pass at 1. by rewrite walk_short.
Qed.

(** *** Errors *)

Lemma pair_step_Raise (s e : Z) (cur next : entry) (st : gen_state)
    (last_timestamp : option Z) (err : exn) :
  pair_step [s; e] cur next (st, last_timestamp) = Raise err →
  err = UnboundLocalError.
Proof.
  unfold pair_step. cbn [index lookup list_lookup bind]. intros H.
  repeat (destruct (decide _) in H; [done|]).
  apply bind_Raise in H as [H|(? & _ & H)]; [|done].
  by apply emit_Raise in H as [-> _].
Qed.

Lemma walk_pairs_Raise (s e : Z) (l : list entry) :
  ∀ (st : gen_state) (last_timestamp : option Z) (err : exn),
    walk_pairs [s; e] l (st, last_timestamp) = Raise err →
    err = UnboundLocalError.
Proof.
  induction l as [|cur l IH]; intros st last_timestamp err H; [done|].
  destruct l as [|next rest]; [done|].
  cbn [walk_pairs] in H.
  apply bind_Raise in H as [H|([st1 last1] & _ & H)].
  - by eapply pair_step_Raise.
  - by eapply IH.
Qed.

Lemma passes_Raise (l : list entry) (sessions : list (list Z)) :
  Forall is_pair sessions →
  ∀ (st : gen_state) (err : exn),
    for_each (session_pass l) sessions st = Raise err →
    err = UnboundLocalError.
Proof.
  induction 1 as [|session sessions (s & e & ->) _ IH]; intros st err H; [done|].
  cbn [for_each] in H. apply bind_Raise in H as [H|(st1 & _ & H)].
  - unfold session_pass in H. rewrite walk_pairs_eq in H.
    apply bind_Raise in H as [H|(? & _ & H)]; [|done].
    by eapply walk_pairs_Raise.
  - by eapply IH.
Qed.

(** *** Success *)

Lemma observe_bound (values : slots) (st : gen_state) :
  is_Some (spo2 st) → is_Some (bpm st) →
  is_Some (spo2 (observe values st)) ∧ is_Some (bpm (observe values st)).
Proof.
  intros [a Ha] [b Hb]. cbn [observe spo2 bpm]. rewrite Ha, Hb.
  destruct values as [[?|] [?|]]; simpl; eauto.
Qed.

Lemma pair_step_bound (s e : Z) (cur next : entry) (st : gen_state)
    (last_timestamp : option Z) :
  is_Some (spo2 (observe cur.2 st)) → is_Some (bpm (observe cur.2 st)) →
  ∃ st' last', pair_step [s; e] cur next (st, last_timestamp) = Ok (st', last') ∧
               is_Some (spo2 st') ∧ is_Some (bpm st').
Proof.
  intros Hs Hb. unfold pair_step. cbn [index lookup list_lookup bind].
  repeat (destruct (decide _); [eauto|]).
  destruct (emit_total (observe cur.2 st)
              (match last_timestamp with Some t => t | None => cur.1 end) next.1
              Hs Hb) as (st' & final & Hemit).
  rewrite Hemit. cbn [bind fst snd]. exists st', (Some final). split; [done|].
  apply emit_Ok in Hemit as (_ & _ & _ & _ & _ & _ & -> & -> & _). done.
Qed.

Lemma walk_pairs_bound (s e : Z) (l : list entry) :
  ∀ (st : gen_state) (last_timestamp : option Z),
    is_Some (spo2 st) → is_Some (bpm st) →
    ∃ st' last', walk_pairs [s; e] l (st, last_timestamp) = Ok (st', last') ∧
                 is_Some (spo2 st') ∧ is_Some (bpm st').
Proof.
  induction l as [|cur l IH]; intros st last_timestamp Hs Hb; [by eauto|].
  destruct l as [|next rest]; [by eauto|].
  cbn [walk_pairs].
  destruct (observe_bound cur.2 st Hs Hb) as [Hs1 Hb1].
  destruct (pair_step_bound s e cur next st last_timestamp Hs1 Hb1)
    as (st1 & last1 & -> & Hs2 & Hb2).
  cbn [bind]. by apply IH.
Qed.

(** When the first entry holds both values every walk returns, from any
    state. *)
Lemma walk_pairs_head (s e : Z) (t0 a b : Z) (rest : list entry)
    (st : gen_state) :
  ∃ st' last',
    walk_pairs [s; e] ((t0, (Some a, Some b)) :: rest) (st, None) = Ok (st', last').
Proof.
  destruct rest as [|next rest]; [by eauto|]. cbn [walk_pairs].
  destruct (pair_step_bound s e (t0, (Some a, Some b)) next st None)
    as (st1 & last1 & -> & Hs & Hb); [by eexists..|].
  cbn [bind].
  destruct (walk_pairs_bound s e (next :: rest) st1 last1 Hs Hb)
    as (st' & last' & H & _). eauto.
Qed.

Lemma passes_head (t0 a b : Z) (rest : list entry) (sessions : list (list Z)) :
  Forall is_pair sessions →
  ∀ st, ∃ st', for_each (session_pass ((t0, (Some a, Some b)) :: rest)) sessions st
               = Ok st'.
Proof.
  induction 1 as [|session sessions (s & e & ->) _ IH]; intros st; [by eauto|].
  cbn [for_each]. unfold session_pass at 1. rewrite walk_pairs_eq.
  destruct (walk_pairs_head s e t0 a b rest st) as (st1 & last1 & ->).
  cbn [bind]. apply IH.
Qed.

(** The earliest instant of the table heads the sorted list. *)
Lemma sorted_items_head (data : gmap Z slots) (t0 : Z) (sl : slots) :
  data !! t0 = Some sl →
  (∀ k, is_Some (data !! k) → t0 ≤ k) →
  ∃ rest, sorted_items data = (t0, sl) :: rest.
Proof.
  intros Ht0%sorted_items_elem Hmin.
  pose proof (sorted_items_sorted data) as Hsorted.
  assert (∀ c, c ∈ sorted_items data → t0 ≤ c.1) as Hmin'.
  { intros c Hc%sorted_items_key. apply Hmin. by eexists. }
  destruct (sorted_items data) as [|c rest]; [by apply elem_of_nil in Ht0|].
  exists rest. f_equal.
  apply elem_of_cons in Ht0 as [<-|Hin]; [done|].
  apply StronglySorted_cons in Hsorted as [Hlater _].
  rewrite Forall_forall in Hlater. specialize (Hlater _ Hin).
  specialize (Hmin' c ltac:(by left)). unfold entry_lt in Hlater.
  simpl in Hlater. lia.
Qed.

(** *** Where the values of the records come from *)

Lemma append_record_flat (st st' : gen_state) (timestamp : Z) :
  append_record st timestamp = Ok st' →
  ∃ sp hr, spo2 st = Some sp ∧ bpm st = Some hr ∧
           spo2 st' = spo2 st ∧ bpm st' = bpm st ∧
           flat st' = flat st ++ [(timestamp, sp, hr)].
Proof.
  unfold append_record, flat. intros H.
  destruct (decide _) in H; cbn [flush spo2 bpm chunks chunk] in H;
    destruct (spo2 st) as [sp|]; try discriminate;
    destruct (bpm st) as [hr|]; try discriminate;
    injection H as <-; exists sp, hr; cbn [chunks chunk spo2 bpm];
    repeat split; try done.
  - rewrite concat_app. simpl. by rewrite app_nil_r, <- app_assoc.
  - by rewrite app_assoc.
Qed.

Lemma emit_flat (st st' : gen_state) (timestamp end_timestamp final : Z) :
  emit st timestamp end_timestamp = Ok (st', final) →
  spo2 st' = spo2 st ∧ bpm st' = bpm st ∧
  ∃ rs, flat st' = flat st ++ rs ∧
        Forall (λ r, spo2 st = Some (rec_spo2 r) ∧ bpm st = Some (rec_bpm r)) rs.
Proof.
  remember (Z.to_nat (end_timestamp - timestamp)) as m eqn:Hm.
  revert st timestamp Hm. induction m as [m IH] using lt_wf_ind.
  intros st timestamp -> H. rewrite emit_unfold in H.
  destruct (decide (timestamp < end_timestamp)) as [Hlt|Hge].
  - inv_bind H.
    apply append_record_flat in Hx as (sp & hr & Hs & Hb & Hs' & Hb' & Hflat).
    unfold spacing in *.
    destruct (IH (Z.to_nat (end_timestamp - (timestamp + 4))) ltac:(lia)
                x (timestamp + 4) eq_refl H)
      as (Hsp & Hbp & rs & Hrs & Hall).
    split; [congruence|]. split; [congruence|].
    exists ((timestamp, sp, hr) :: rs). split.
    + by rewrite Hrs, Hflat, <- app_assoc.
    + apply Forall_cons. split; [done|].
      eapply Forall_impl; [done|]. intros r [? ?]. split; congruence.
  - injection H as <- <-. split; [done|]. split; [done|].
    exists []. by rewrite app_nil_r.
Qed.

Lemma observe_from_table (l : list entry) (c : entry) (st : gen_state) :
  c ∈ l → running_from_table l st → running_from_table l (observe c.2 st).
Proof.
  intros Hc [Hs Hb]. split; intros v; cbn [observe spo2 bpm]; unfold carry.
  - destruct (c.2.1) as [x|] eqn:Hx; [|by auto]. intros [= <-]. eauto.
  - destruct (c.2.2) as [x|] eqn:Hx; [|by auto]. intros [= <-]. eauto.
Qed.

Lemma pair_step_from_table (l : list entry) (session : list Z) (cur next : entry)
    (st st' : gen_state) (last_timestamp last' : option Z) :
  cur ∈ l →
  pair_step session cur next (st, last_timestamp) = Ok (st', last') →
  running_from_table l st → Forall (from_table l) (flat st) →
  running_from_table l st' ∧ Forall (from_table l) (flat st').
Proof.
  intros Hcur H Hrun Hflat.
  pose proof (observe_from_table l cur st Hcur Hrun) as Hrun1.
  unfold pair_step in H. inv_bind H.
  destruct (decide _) in H; [by injection H as <- <-|].
  inv_bind H. destruct (decide _) in H; [by injection H as <- <-|].
  inv_bind H. destruct x1 as [st2 final]. injection H as <- <-.
  apply emit_flat in Hx1 as (Hs & Hb & rs & Hrs & Hall).
  destruct Hrun1 as [Hrs1 Hrb1]. split.
  - split; intros v; [rewrite Hs|rewrite Hb]; auto.
  - rewrite Hrs. apply Forall_app. split; [done|].
    eapply Forall_impl; [done|]. intros r [Hr1 Hr2]. split; auto.
Qed.

Lemma walk_pairs_from_table (l : list entry) (session : list Z) (l' : list entry) :
  l' ⊆ l →
  ∀ (st st' : gen_state) (last_timestamp last' : option Z),
    walk_pairs session l' (st, last_timestamp) = Ok (st', last') →
    running_from_table l st → Forall (from_table l) (flat st) →
    running_from_table l st' ∧ Forall (from_table l) (flat st').
Proof.
  induction l' as [|cur l' IH]; intros Hsub st st' last_timestamp last' H Hrun Hflat.
  { by injection H as <- <-. }
  destruct l' as [|next rest]; [by injection H as <- <-|].
  cbn [walk_pairs] in H. inv_bind H. destruct x as [st1 last1].
  destruct (pair_step_from_table l session cur next st st1 last_timestamp last1)
    as [Hrun1 Hflat1]; try done.
  { apply Hsub. by left. }
  eapply IH; try done. intros c Hc. apply Hsub. by right.
Qed.

Lemma flush_if_open_flat (st : gen_state) : flat (flush_if_open st) = flat st.
Proof.
  unfold flush_if_open, flat. destruct (chunk st) as [|r c] eqn:Hc; [by rewrite Hc|].
  cbn [flush chunks chunk]. rewrite concat_app, Hc. simpl. by rewrite !app_nil_r.
Qed.

Lemma passes_from_table (l : list entry) (sessions : list (list Z)) :
  ∀ st st' : gen_state,
    for_each (session_pass l) sessions st = Ok st' →
    running_from_table l st → Forall (from_table l) (flat st) →
    running_from_table l st' ∧ Forall (from_table l) (flat st').
Proof.
  induction sessions as [|session sessions IH]; intros st st' H Hrun Hflat.
  { by injection H as <-. }
  cbn [for_each] in H. inv_bind H. unfold session_pass in Hx.
  rewrite walk_pairs_eq in Hx. inv_bind Hx. destruct x0 as [st1 last1].
  injection Hx as <-.
  destruct (walk_pairs_from_table l session l ltac:(done) _ _ _ _ Hx0 Hrun Hflat)
    as [Hrun1 Hflat1].
  eapply IH; [done| |by rewrite flush_if_open_flat].
  destruct Hrun1 as [? ?]. unfold flush_if_open.
  by destruct (chunk st1).
Qed.

Lemma divide_Raise (sessions : list (list Z)) (data : gmap Z slots) (err : exn) :
  Forall is_pair sessions →
  divide_data_to_viatom_chunks sessions data = Raise err →
  err = UnboundLocalError.
Proof.
  intros Hpairs H. unfold divide_data_to_viatom_chunks in H. cbn zeta in H.
  apply bind_Raise in H as [H|(? & _ & H)]; [|done].
  by eapply passes_Raise.
Qed.

Lemma divide_from_table (sessions : list (list Z)) (data : gmap Z slots)
    (cs : list (list record)) (c : list record) (r : record) :
  divide_data_to_viatom_chunks sessions data = Ok cs →
  c ∈ cs → r ∈ c →
  (∃ t, observed fst data t (rec_spo2 r)) ∧
  (∃ t, observed snd data t (rec_bpm r)).
Proof.
  intros H Hc Hr. unfold divide_data_to_viatom_chunks in H. cbn zeta in H.
  inv_bind H. injection H as <-.
  destruct (passes_from_table (sorted_items data) sessions initial x Hx)
    as [_ Hflat]; [by split|done|].
  rewrite <- flush_if_open_flat in Hflat. unfold flat in Hflat.
  apply Forall_app in Hflat as [Hflat _].
  rewrite Forall_forall in Hflat.
  destruct (Hflat r) as [(c1 & Hc1 & Hv1) (c2 & Hc2 & Hv2)].
  { apply list_elem_of_In, in_concat. exists c.
    split; by apply list_elem_of_In. }
  apply sorted_items_key in Hc1, Hc2.
  split; [exists c1.1|exists c2.1]; eexists; eauto.
Qed.

End ChunkMore.

Import ChunkSpec ChunkMore.

(** X7. With no session, or with a table of fewer than two instants, the
    generator returns no chunk, whatever the sessions are. *)
Theorem divide_nothing :
  (∀ data : gmap Z slots, divide_data_to_viatom_chunks [] data = Ok []) ∧
  (∀ (sessions : list (list Z)) (data : gmap Z slots),
     (size data ≤ 1)%nat → divide_data_to_viatom_chunks sessions data = Ok []).
Proof.
  split; [done|]. intros sessions data Hsize.
  unfold divide_data_to_viatom_chunks. cbn zeta.
  rewrite passes_short; [done|]. by rewrite sorted_items_length.
Qed.

Lemma divide_nothing_witness :
  divide_data_to_viatom_chunks [[0; 10]; [5]] {[ 3 := (Some 95, None) ]} = Ok [].
Proof.
  apply (proj2 divide_nothing). by vm_compute.
Defined.

(** X8. On sessions that are pairs [[start, end]] the generator can only fail
    by reading a running value that no table entry has assigned yet: it never
    raises another exception. *)
Theorem divide_only_unbound (sessions : list (list Z)) (data : gmap Z slots)
    (err : exn) :
  Forall (λ session, ∃ s e, session = [s; e]) sessions →
  divide_data_to_viatom_chunks sessions data = Raise err →
  err = UnboundLocalError.
Proof.
  intros Hpairs H. by eapply divide_Raise.
Qed.

Lemma divide_only_unbound_witness : UnboundLocalError = UnboundLocalError.
Proof.
  apply (divide_only_unbound [[0; 0]]
           {[ 0 := (Some 95, None); 10 := (None, Some 70) ]}).
  - repeat constructor. by exists 0, 0.
  - by vm_compute.
Defined.

(** X9. When the earliest instant of the table holds both a saturation value
    and a heart rate, the generator returns its chunks for every list of
    sessions that are pairs. *)
Theorem divide_returns (sessions : list (list Z)) (data : gmap Z slots)
    (t0 a b : Z) :
  Forall (λ session, ∃ s e, session = [s; e]) sessions →
  data !! t0 = Some (Some a, Some b) →
  (∀ k, is_Some (data !! k) → t0 ≤ k) →
  ∃ cs, divide_data_to_viatom_chunks sessions data = Ok cs.
Proof.
  intros Hpairs Ht0 Hmin.
  destruct (sorted_items_head data t0 _ Ht0 Hmin) as [rest Hsd].
  assert (∃ st, for_each (session_pass (sorted_items data)) sessions initial
                = Ok st) as [st Hst].
  { rewrite Hsd. by apply passes_head. }
  unfold divide_data_to_viatom_chunks. cbn zeta. rewrite Hst.
  cbn [bind]. eauto.
Qed.

Lemma divide_returns_witness :
  ∃ cs, divide_data_to_viatom_chunks [[0; 0]; [600; 600]]
          {[ 0 := (Some 95, Some 70); 10 := (Some 96, None);
             600 := (Some 97, None); 609 := (None, Some 71) ]} = Ok cs.
Proof.
  apply (divide_returns _ _ 0 95 70).
  - repeat constructor; eexists _, _; reflexivity.
  - by vm_compute.
  - intros k [sl Hk].
    repeat (apply lookup_insert_Some in Hk as [[<- _]|[_ Hk]]; [lia|]).
    by apply lookup_singleton_Some in Hk as [<- _].
Defined.

(** X10. The generator invents no value: in every record of every chunk the
    saturation value and the heart rate are values that the table holds at
    some instant. *)
Theorem divide_values (sessions : list (list Z)) (data : gmap Z slots)
    (cs : list (list record)) (c : list record) (r : record) :
  divide_data_to_viatom_chunks sessions data = Ok cs →
  c ∈ cs → r ∈ c →
  (∃ t, observed fst data t (rec_spo2 r)) ∧
  (∃ t, observed snd data t (rec_bpm r)).
Proof.
  intros H Hc Hr. by eapply divide_from_table.
Qed.

Lemma divide_values_witness :
  (∃ t, observed fst
          ({[ 0 := (Some 95, Some 70); 10 := (Some 96, None);
              600 := (Some 97, None); 609 := (None, Some 71) ]} : gmap Z slots)
          t (rec_spo2 (604, 97, 70))) ∧
  (∃ t, observed snd
          ({[ 0 := (Some 95, Some 70); 10 := (Some 96, None);
              600 := (Some 97, None); 609 := (None, Some 71) ]} : gmap Z slots)
          t (rec_bpm (604, 97, 70))).
Proof.
  apply (divide_values [[0; 0]; [600; 600]] _
           [[(0, 95, 70); (4, 95, 70); (8, 95, 70)];
            [(600, 97, 70); (604, 97, 70); (608, 97, 70)]]
           [(600, 97, 70); (604, 97, 70); (608, 97, 70)]).
  - vm_compute. reflexivity.
  - right. by left.
  - right. by left.
Defined.

(** ** The whole export *)

Module ExportMore.
Import Align AlignFacts.

Section ExportRun.

Variable fields : Z → civil.

(** The loop over the chunks stops at the first chunk that the encoder
    refuses; the files of the chunks before it are written, and the refused
    chunk leaves what its call leaves. *)
Lemma write_chunks_prefix (chunks : list (list record)) :
  ∀ done : list file,
    ∃ files,
      Forall2 (λ c f, write_to_viatom_file fields c = Ok f)
              (take (length files) chunks) files ∧
      match raised (write_chunks fields chunks done) with
      | None => length files = length chunks ∧
                written (write_chunks fields chunks done) = done ++ files
      | Some e => ∃ c, chunks !! length files = Some c ∧
                       write_to_viatom_file fields c = Raise e ∧
                       written (write_chunks fields chunks done)
                       = done ++ files ++ option_list (left_behind fields c)
      end.
Proof.
  induction chunks as [|c chunks IH]; intros done; cbn [write_chunks].
  - exists []. split; [constructor|]. cbn [raised written].
    by rewrite app_nil_r.
  - destruct (write_to_viatom_file fields c) as [f|e] eqn:Hc.
    + destruct (IH (done ++ [f])) as (files & Hall & Hr).
      exists (f :: files). split; [by constructor|]. cbn [length].
      destruct (raised (write_chunks fields chunks (done ++ [f]))).
      * destruct Hr as (c' & ? & ? & ->). exists c'.
        by rewrite <- !app_assoc.
      * destruct Hr as [-> ->]. by rewrite <- !app_assoc.
    + exists []. split; [constructor|]. cbn [written raised]. by exists c.
Qed.

Lemma write_chunks_raised (chunks : list (list record)) (done : list file)
    (e : exn) :
  raised (write_chunks fields chunks done) = Some e →
  ∃ c, c ∈ chunks ∧ write_to_viatom_file fields c = Raise e.
Proof.
  intros H. destruct (write_chunks_prefix chunks done) as (files & _ & Hr).
  rewrite H in Hr. destruct Hr as (c & Hc & Hraise & _).
  exists c. split; [|done]. by eapply list_elem_of_lookup_2.
Qed.

(** The encoder accepts every chunk of the generator whose heart rates are
    bytes, when the calendar fields fit. *)
Lemma generated_chunk_written (sessions : list (list Z)) (data : gmap Z slots)
    (cs : list (list record)) (c : list record) :
  (∀ t, fits_header (fields t)) →
  divide_data_to_viatom_chunks sessions data = Ok cs → c ∈ cs →
  Forall (λ r, 0 ≤ rec_bpm r ≤ 255) c →
  ∃ f, write_to_viatom_file fields c = Ok f.
Proof.
  intros Hfits Hdiv Hc Hall.
  pose proof (divide_chunks_bounded _ _ _ Hdiv) as Hbound.
  rewrite Forall_forall in Hbound. specialize (Hbound c Hc).
  unfold max_records in Hbound.
  destruct c as [|first c]; [simpl in Hbound; lia|].
  apply (write_to_viatom_file_fits fields (first :: c) first);
    [done|lia|apply Hfits|done].
Qed.

(** The exception of an export is one of three, and an exception other than
    [struct.error] leaves no file. *)
Lemma export_cases (csv_files json_files : list (list sample)) :
  (raised (export_spo2_as_viatom fields csv_files json_files) = None ∨
   raised (export_spo2_as_viatom fields csv_files json_files) = Some StructError) ∨
  (written (export_spo2_as_viatom fields csv_files json_files) = [] ∧
   (raised (export_spo2_as_viatom fields csv_files json_files)
    = Some FileNotFoundError ∨
    raised (export_spo2_as_viatom fields csv_files json_files)
    = Some UnboundLocalError)).
Proof.
  unfold export_spo2_as_viatom. case_decide; [right; by auto|].
  destruct (align_spo2_data csv_files json_files) as [[ss d]|e] eqn:Halign.
  2:{ apply align_spo2_data_Raise in Halign as [-> _]. right. by auto. }
  apply align_sessions in Halign as (_ & last_bpm & _ & Hpairs).
  destruct (divide_data_to_viatom_chunks ss d) as [cs|e] eqn:Hdiv.
  2:{ apply divide_Raise in Hdiv as ->; [right; by auto|].
      eapply Forall_impl; [done|]. intros session (s & e' & -> & _).
      by exists s, e'. }
  left.
  destruct (raised (write_chunks fields cs [])) as [e|] eqn:Hr; [|by left].
  right. apply write_chunks_raised in Hr as (c & Hc & Hraise).
  pose proof (divide_chunks_bounded _ _ _ Hdiv) as Hbound.
  rewrite Forall_forall in Hbound. specialize (Hbound c Hc).
  unfold max_records in Hbound.
  apply write_to_viatom_file_Raise in Hraise as [[_ ?]|[[_ ->]|[-> _]]];
    [lia|simpl in Hbound; lia|done].
Qed.

End ExportRun.

(** *** From the streams to the records *)

Lemma last_value_Some (t v : Z) (samples : list sample) :
  last_value t samples = Some v → (t, v) ∈ samples.
Proof.
  unfold last_value. intros H.
  destruct (last (filter (λ smp : sample, smp.1 = t) samples)) as [smp|] eqn:Hlast;
    [|done].
  simpl in H. injection H as <-. apply last_Some_elem_of in Hlast.
  apply list_elem_of_filter in Hlast as [Ht Hin]. simpl in Ht. subst t.
  by destruct smp.
Qed.

Lemma aligned_from_streams (csv_files json_files : list (list sample))
    (ss : list (list Z)) (d : gmap Z slots) (t v : Z) :
  align_spo2_data csv_files json_files = Ok (ss, d) →
  (observed fst d t v → (t, v) ∈ concat csv_files) ∧
  (observed snd d t v → (t, v) ∈ concat json_files).
Proof.
  intros (cl & start & prev & last_bpm & -> & _)%align_spo2_data_structure.
  split; intros (sl & Hsl & Hv); rewrite merged_lookup in Hsl;
    unfold merged in Hsl;
    destruct (last_value t (concat csv_files)) eqn:H1,
             (last_value t (concat json_files)) eqn:H2;
    simplify_eq/=; by apply last_value_Some.
Qed.

Lemma records_from_streams (csv_files json_files : list (list sample))
    (ss : list (list Z)) (d : gmap Z slots) (cs : list (list record))
    (c : list record) (r : record) :
  align_spo2_data csv_files json_files = Ok (ss, d) →
  divide_data_to_viatom_chunks ss d = Ok cs →
  c ∈ cs → r ∈ c →
  (∃ t, (t, rec_spo2 r) ∈ concat csv_files) ∧
  (∃ t, (t, rec_bpm r) ∈ concat json_files).
Proof.
  intros Halign Hdiv Hc Hr.
  destruct (divide_from_table ss d cs c r Hdiv Hc Hr) as [[t1 H1] [t2 H2]].
  destruct (aligned_from_streams _ _ _ _ t1 (rec_spo2 r) Halign) as [Hsp _].
  destruct (aligned_from_streams _ _ _ _ t2 (rec_bpm r) Halign) as [_ Hhr].
  split; [exists t1|exists t2]; auto.
Qed.

(** *** [read_csv] *)

Lemma read_csv_elem (rows : list (Z * Z)) (t v : Z) :
  (t, v) ∈ Ingest.read_csv rows →
  ∃ raw, (t, raw) ∈ rows ∧ 61 ≤ raw ∧ v = (if decide (raw = 100) then 99 else raw).
Proof.
  unfold Ingest.read_csv. intros ([t' raw] & Hin & Hrow)%list_elem_of_omap.
  unfold Ingest.read_csv_row in Hrow. case_decide; [done|].
  injection Hrow as -> <-. exists raw. split; [done|]. split; [lia|done].
Qed.

Lemma read_csv_files_elem (files : list (list (Z * Z))) (t v : Z) :
  (t, v) ∈ concat (Ingest.read_csv <$> files) → 61 ≤ v ∧ v ≠ 100.
Proof.
  intros (l & Hl & Hin)%list_elem_of_In%in_concat.
  apply list_elem_of_In, list_elem_of_fmap in Hl as (rows & -> & _).
  apply list_elem_of_In, read_csv_elem in Hin as (raw & _ & Hraw & ->).
  case_decide; lia.
Qed.

End ExportMore.

Import Align AlignFacts ExportMore.

(** X11. A chunk of at most 4095 records whose calendar fields fit the
    header and that holds a heart rate which is no byte is refused with
    [struct.error] after its file was opened.  The file that stays holds the
    header, the records before the first such record and the first byte of
    that record: it is shorter than the size that its header announces.  A
    chunk that is refused with another exception leaves no file, and a chunk
    that is written leaves the file returned. *)
Theorem refused_chunk_file :
  (∀ (fields : Z → civil) (data : list record) (first r : record) (i : nat),
     data !! 0%nat = Some first →
     Z.of_nat (length data) ≤ 4095 →
     fits_header (fields (rec_time first)) →
     data !! i = Some r →
     ¬ (0 ≤ rec_bpm r ≤ 255) →
     Forall (λ r, 0 ≤ rec_bpm r ≤ 255) (take i data) →
     write_to_viatom_file fields data = Raise StructError ∧
     ∃ header f,
       write_header fields first (Z.of_nat (length data)) = Ok header ∧
       left_behind fields data = Some f ∧
       stamp f = rec_time first ∧
       content f = header ++ concat (map record_body (take i data))
                   ++ take 1 (record_body r) ∧
       Z.of_nat (length (content f)) = 41 + 5 * Z.of_nat i ∧
       le_decode (slice 9 4 (content f)) = 5 * Z.of_nat (length data) + 40 ∧
       Z.of_nat (length (content f)) < 5 * Z.of_nat (length data) + 40) ∧
  (∀ (fields : Z → civil) (data : list record) (e : exn),
     write_to_viatom_file fields data = Raise e →
     e = StructError ∨ left_behind fields data = None) ∧
  (∀ (fields : Z → civil) (data : list record) (f : file),
     write_to_viatom_file fields data = Ok f →
     left_behind fields data = Some f).
Proof.
  split; [|split].
  - intros fields data first r i Hfirst Hlen Hfits Hi Hr Hall.
    pose proof (lookup_lt_Some _ _ _ Hi) as Hilt.
    destruct (write_header_fits fields first (Z.of_nat (length data)) Hfits)
      as [header Hh]; [lia|].
    assert (write_to_viatom_file fields data = Raise StructError) as Hraise.
    { destruct (write_to_viatom_file fields data) as [f|e] eqn:Hw.
      - apply write_to_viatom_file_Ok in Hw as (_ & _ & _ & _ & _ & Hbytes & _).
        by pose proof (Forall_lookup_1 _ _ _ _ Hbytes Hi).
      - apply write_to_viatom_file_Raise in Hw as [[_ ?]|[[_ ->]|[-> _]]];
          [lia|done|done]. }
    split; [done|].
    exists header,
      {| stamp := rec_time first;
         content := header ++ concat (map record_body (take i data))
                    ++ take 1 (record_body r) |}.
    split; [done|]. split.
    { unfold left_behind. rewrite decide_False by lia. rewrite Hfirst.
      rewrite (header_writes_Ok _ _ _ _ _ Hh).
      rewrite <- (app_nil_r (concat (map record_writes data))).
      by rewrite (records_writes_Raise _ _ _ _ Hi Hr Hall). }
    split; [done|]. split; [done|]. cbn [content].
    assert (Z.of_nat (length (header ++ concat (map record_body (take i data))
                              ++ take 1 (record_body r)))
            = 41 + 5 * Z.of_nat i) as Hsize.
    { rewrite !length_app, (write_header_length _ _ _ _ Hh),
        record_bodies_length, !length_take, record_body_length. lia. }
    split; [done|]. split; [|lia].
    apply write_header_Ok in Hh as (date & size & duration & -> & Hd & Hs & _).
    apply pack_I_Ok in Hs as (_ & Hs & Hsd).
    rewrite <- !app_assoc, slice_app_length by done. lia.
  - intros fields data e [[_ ?]|[? _]]%left_behind_Raise; auto.
  - intros fields data f. apply left_behind_Ok.
Qed.

Lemma refused_chunk_file_witness :
  write_to_viatom_file new_year_2024 [(0, 95, 70); (4, 96, 300); (8, 97, 71)]
  = Raise StructError ∧
  ∃ header f,
    write_header new_year_2024 (0, 95, 70)
      (Z.of_nat (length [(0, 95, 70); (4, 96, 300); (8, 97, 71)])) = Ok header ∧
    left_behind new_year_2024 [(0, 95, 70); (4, 96, 300); (8, 97, 71)] = Some f ∧
    stamp f = rec_time (0, 95, 70) ∧
    content f = header
                ++ concat (map record_body
                             (take 1 [(0, 95, 70); (4, 96, 300); (8, 97, 71)]))
                ++ take 1 (record_body (4, 96, 300)) ∧
    Z.of_nat (length (content f)) = 41 + 5 * Z.of_nat 1 ∧
    le_decode (slice 9 4 (content f))
    = 5 * Z.of_nat (length [(0, 95, 70); (4, 96, 300); (8, 97, 71)]) + 40 ∧
    Z.of_nat (length (content f))
    < 5 * Z.of_nat (length [(0, 95, 70); (4, 96, 300); (8, 97, 71)]) + 40.
Proof.
  apply (proj1 refused_chunk_file new_year_2024
           [(0, 95, 70); (4, 96, 300); (8, 97, 71)] (0, 95, 70) (4, 96, 300) 1%nat).
  - reflexivity.
  - simpl. lia.
  - split; [simpl; lia|]. vm_compute.
    repeat (constructor; [split; discriminate|]). constructor.
  - reflexivity.
  - simpl. lia.
  - simpl. repeat (constructor; [simpl; lia|]). constructor.
Defined.

(** X12. Once the profile and the data files have been read into the two
    lists of streams, an export ends without exception or with one of
    [FileNotFoundError], [UnboundLocalError] and [struct.error]: the
    [RuntimeError] of a chunk that is too long and the [IndexError] of an
    empty chunk never occur, and only [struct.error] can leave files
    behind. *)
Theorem export_outcomes (fields : Z → civil)
    (csv_files json_files : list (list sample)) :
  (raised (export_spo2_as_viatom fields csv_files json_files) = None ∨
   raised (export_spo2_as_viatom fields csv_files json_files) = Some StructError) ∨
  (written (export_spo2_as_viatom fields csv_files json_files) = [] ∧
   (raised (export_spo2_as_viatom fields csv_files json_files)
    = Some FileNotFoundError ∨
    raised (export_spo2_as_viatom fields csv_files json_files)
    = Some UnboundLocalError)).
Proof. apply export_cases. Qed.

(** X13. When the calendar fields of every instant fit the header and every
    heart rate of the JSON files is a byte, the export, once the profile and
    the data files have been read into the two lists of streams, never raises
    [struct.error]: it raises [FileNotFoundError] or [UnboundLocalError]
    before any file is written, or it writes one file for each chunk of the
    generator, in order. *)
Theorem export_of_byte_heart_rates (fields : Z → civil)
    (csv_files json_files : list (list sample)) :
  (∀ t, fits_header (fields t)) →
  Forall (λ smp : sample, 0 ≤ smp.2 ≤ 255) (concat json_files) →
  (raised (export_spo2_as_viatom fields csv_files json_files) = None ∧
   ∃ ss d cs,
     align_spo2_data csv_files json_files = Ok (ss, d) ∧
     divide_data_to_viatom_chunks ss d = Ok cs ∧
     Forall2 (λ c f, write_to_viatom_file fields c = Ok f) cs
             (written (export_spo2_as_viatom fields csv_files json_files))) ∨
  (written (export_spo2_as_viatom fields csv_files json_files) = [] ∧
   (raised (export_spo2_as_viatom fields csv_files json_files)
    = Some FileNotFoundError ∨
    raised (export_spo2_as_viatom fields csv_files json_files)
    = Some UnboundLocalError)).
Proof.
  intros Hfits Hbytes.
  destruct (export_cases fields csv_files json_files) as [Hcase|Hcase];
    [|by right].
  left. revert Hcase. unfold export_spo2_as_viatom.
  case_decide; [by intros [|]|].
  destruct (align_spo2_data csv_files json_files) as [[ss d]|e] eqn:Halign.
  2:{ apply align_spo2_data_Raise in Halign as [-> _]. by intros [|]. }
  destruct (divide_data_to_viatom_chunks ss d) as [cs|e] eqn:Hdiv.
  2:{ apply divide_Raise in Hdiv as ->; [by intros [|]|].
      apply align_sessions in Halign as (_ & last_bpm & _ & Hpairs).
      eapply Forall_impl; [done|]. intros session (s & e' & -> & _).
      by exists s, e'. }
  intros Hcase.
  destruct (write_chunks_prefix fields cs []) as (files & Hall & Hr).
  destruct (raised (write_chunks fields cs [])) as [e|] eqn:Hraised.
  - destruct Hr as (c & Hc%list_elem_of_lookup_2 & Hraise & _).
    destruct (generated_chunk_written fields ss d cs c Hfits Hdiv Hc)
      as [f Hf]; [|congruence].
    apply Forall_forall. intros r Hr.
    destruct (records_from_streams _ _ _ _ _ _ _ Halign Hdiv Hc Hr)
      as [_ [t Ht]].
    rewrite Forall_forall in Hbytes. apply (Hbytes _ Ht).
  - destruct Hr as [Hlen Hw].
    split; [done|]. exists ss, d, cs. split; [done|]. split; [done|].
    rewrite Hw. simpl. by rewrite take_ge in Hall by lia.
Qed.

Lemma export_of_byte_heart_rates_witness :
  (raised (export_spo2_as_viatom
             (λ t, {| year := 2024; month := 1; day := 1;
                      hour := (t `div` 3600) `mod` 24;
                      minute := (t `div` 60) `mod` 60;
                      second := t `mod` 60 |})
             [[(0, 95); (60, 96)]] [[(0, 70); (900, 71)]]) = None ∧
   ∃ ss d cs,
     align_spo2_data [[(0, 95); (60, 96)]] [[(0, 70); (900, 71)]] = Ok (ss, d) ∧
     divide_data_to_viatom_chunks ss d = Ok cs ∧
     Forall2 (λ c f, write_to_viatom_file
                       (λ t, {| year := 2024; month := 1; day := 1;
                                hour := (t `div` 3600) `mod` 24;
                                minute := (t `div` 60) `mod` 60;
                                second := t `mod` 60 |}) c = Ok f) cs
             (written (export_spo2_as_viatom
                         (λ t, {| year := 2024; month := 1; day := 1;
                                  hour := (t `div` 3600) `mod` 24;
                                  minute := (t `div` 60) `mod` 60;
                                  second := t `mod` 60 |})
                         [[(0, 95); (60, 96)]] [[(0, 70); (900, 71)]]))) ∨
  (written (export_spo2_as_viatom
              (λ t, {| year := 2024; month := 1; day := 1;
                       hour := (t `div` 3600) `mod` 24;
                       minute := (t `div` 60) `mod` 60;
                       second := t `mod` 60 |})
              [[(0, 95); (60, 96)]] [[(0, 70); (900, 71)]]) = [] ∧
   (raised (export_spo2_as_viatom
              (λ t, {| year := 2024; month := 1; day := 1;
                       hour := (t `div` 3600) `mod` 24;
                       minute := (t `div` 60) `mod` 60;
                       second := t `mod` 60 |})
              [[(0, 95); (60, 96)]] [[(0, 70); (900, 71)]])
    = Some FileNotFoundError ∨
    raised (export_spo2_as_viatom
              (λ t, {| year := 2024; month := 1; day := 1;
                       hour := (t `div` 3600) `mod` 24;
                       minute := (t `div` 60) `mod` 60;
                       second := t `mod` 60 |})
              [[(0, 95); (60, 96)]] [[(0, 70); (900, 71)]])
    = Some UnboundLocalError)).
Proof.
  apply export_of_byte_heart_rates.
  - intros t. split; [simpl; lia|]. simpl.
    pose proof (Z.mod_pos_bound (t `div` 3600) 24).
    pose proof (Z.mod_pos_bound (t `div` 60) 60).
    pose proof (Z.mod_pos_bound t 60).
    repeat (constructor; [lia|]). constructor.
  - simpl. repeat (constructor; [simpl; lia|]). constructor.
Defined.

(** X14. Every record that the generator makes from an aligned table carries
    a saturation value of some CSV sample and a heart rate of some JSON
    sample. *)
Theorem record_values_from_files (csv_files json_files : list (list sample))
    (ss : list (list Z)) (d : gmap Z slots) (cs : list (list record))
    (c : list record) (r : record) :
  align_spo2_data csv_files json_files = Ok (ss, d) →
  divide_data_to_viatom_chunks ss d = Ok cs →
  c ∈ cs → r ∈ c →
  (∃ t, (t, rec_spo2 r) ∈ concat csv_files) ∧
  (∃ t, (t, rec_bpm r) ∈ concat json_files).
Proof. apply records_from_streams. Qed.

Lemma record_values_from_files_witness :
  (∃ t, (t, rec_spo2 (12, 96, 70)) ∈ concat [[(0, 95); (8, 96)]]) ∧
  (∃ t, (t, rec_bpm (12, 96, 70)) ∈ concat [[(0, 70); (20, 71)]]).
Proof.
  apply (record_values_from_files [[(0, 95); (8, 96)]] [[(0, 70); (20, 71)]]
           [[0; 8]]
           {[ 0 := (Some 95, Some 70); 8 := (Some 96, None);
              20 := (None, Some 71) ]}
           [[(0, 95, 70); (4, 95, 70); (8, 96, 70); (12, 96, 70); (16, 96, 70)]]
           [(0, 95, 70); (4, 95, 70); (8, 96, 70); (12, 96, 70); (16, 96, 70)]).
  - vm_compute. reflexivity.
  - vm_compute. reflexivity.
  - by left.
  - do 3 right. by left.
Defined.

(** X15. A saturation value that [read_csv] yields is never below 61, and a
    value of exactly 61, which the reader keeps, is written as the invalid
    marker.  In a file written from a chunk of CSV data read by [read_csv],
    the five bytes of record [i] are those that the encoder packs for it:
    the marker 255, the heart rate, 255, 0, 0 exactly when the value is 61,
    and otherwise the smaller of the value and 99, a byte between 62 and 99,
    followed by the heart rate and three zero bytes. *)
Theorem csv_saturation_byte (fields : Z → civil) (csv_rows : list (list (Z * Z)))
    (json_files : list (list sample)) (ss : list (list Z)) (d : gmap Z slots)
    (cs : list (list record)) (c : list record) (f : file) (i : nat)
    (r : record) :
  align_spo2_data (Ingest.read_csv <$> csv_rows) json_files = Ok (ss, d) →
  divide_data_to_viatom_chunks ss d = Ok cs →
  c ∈ cs →
  write_to_viatom_file fields c = Ok f →
  c !! i = Some r →
  encode_record r = Ok (slice (40 + 5 * i) 5 (content f)) ∧
  ((rec_spo2 r = 61 ∧
    slice (40 + 5 * i) 5 (content f) = [255; rec_bpm r; 255; 0; 0]) ∨
   (62 ≤ rec_spo2 r ∧ rec_spo2 r ≠ 100 ∧
    62 ≤ Z.min (rec_spo2 r) 99 ≤ 99 ∧
    slice (40 + 5 * i) 5 (content f)
    = [Z.min (rec_spo2 r) 99; rec_bpm r; 0; 0; 0])).
Proof.
  intros Halign Hdiv Hc Hw Hi.
  pose proof (list_elem_of_lookup_2 _ _ _ Hi) as Hr.
  destruct (records_from_streams _ _ _ _ _ _ _ Halign Hdiv Hc Hr)
    as [[t Ht] _].
  apply read_csv_files_elem in Ht as [Hlow Hhundred].
  rewrite (slice_record fields c f i r Hw Hi).
  apply write_to_viatom_file_Ok in Hw as (_ & _ & _ & _ & _ & Hbytes & _).
  pose proof (Forall_lookup_1 _ _ _ _ Hbytes Hi) as Hhr. cbn beta in Hhr.
  split; [by apply encode_record_Ok|].
  unfold record_body. case_decide.
  - left. split; [lia|done].
  - right. split; [lia|]. split; [done|]. split; [lia|done].
Qed.

Lemma csv_saturation_byte_witness :
  encode_record (12, 99, 70)
  = Ok (slice (40 + 5 * 3) 5
          (content
             {| stamp := 0;
                content :=
                  [5; 0; 232; 7; 1; 1; 0; 0; 0; 65; 0; 0; 0; 20; 0]
                  ++ replicate 25 0
                  ++ [255; 70; 255; 0; 0; 255; 70; 255; 0; 0; 99; 70; 0; 0; 0;
                      99; 70; 0; 0; 0; 99; 70; 0; 0; 0] |})) ∧
  ((rec_spo2 (12, 99, 70) = 61 ∧
    slice (40 + 5 * 3) 5
      (content
         {| stamp := 0;
            content :=
              [5; 0; 232; 7; 1; 1; 0; 0; 0; 65; 0; 0; 0; 20; 0]
              ++ replicate 25 0
              ++ [255; 70; 255; 0; 0; 255; 70; 255; 0; 0; 99; 70; 0; 0; 0;
                  99; 70; 0; 0; 0; 99; 70; 0; 0; 0] |})
    = [255; rec_bpm (12, 99, 70); 255; 0; 0]) ∨
   (62 ≤ rec_spo2 (12, 99, 70) ∧ rec_spo2 (12, 99, 70) ≠ 100 ∧
    62 ≤ Z.min (rec_spo2 (12, 99, 70)) 99 ≤ 99 ∧
    slice (40 + 5 * 3) 5
      (content
         {| stamp := 0;
            content :=
              [5; 0; 232; 7; 1; 1; 0; 0; 0; 65; 0; 0; 0; 20; 0]
              ++ replicate 25 0
              ++ [255; 70; 255; 0; 0; 255; 70; 255; 0; 0; 99; 70; 0; 0; 0;
                  99; 70; 0; 0; 0; 99; 70; 0; 0; 0] |})
    = [Z.min (rec_spo2 (12, 99, 70)) 99; rec_bpm (12, 99, 70); 0; 0; 0])).
Proof.
  apply (csv_saturation_byte new_year_2024
           [[(0, 61); (4, 60); (8, 100)]] [[(0, 70); (20, 71)]]
           [[0; 8]]
           {[ 0 := (Some 61, Some 70); 8 := (Some 99, None);
              20 := (None, Some 71) ]}
           [[(0, 61, 70); (4, 61, 70); (8, 99, 70); (12, 99, 70); (16, 99, 70)]]
           [(0, 61, 70); (4, 61, 70); (8, 99, 70); (12, 99, 70); (16, 99, 70)]).
  - vm_compute. reflexivity.
  - vm_compute. reflexivity.
  - by left.
  - vm_compute. reflexivity.
  - reflexivity.
Defined.

(** X16. [read_csv] yields the rows in their order, without the rows whose
    value is below 61; a yielded value is the row's, except that 100 is
    yielded as 99, so that no yielded value is 100. *)
Theorem read_csv_rows (rows : list (Z * Z)) :
  (Ingest.read_csv rows).*1 `sublist_of` rows.*1 ∧
  (∀ t v, (t, v) ∈ Ingest.read_csv rows →
          v ≠ 100 ∧
          ∃ raw, (t, raw) ∈ rows ∧ 61 ≤ raw ∧
                 v = (if decide (raw = 100) then 99 else raw)) ∧
  (∀ t raw, (t, raw) ∈ rows → 61 ≤ raw →
            (t, if decide (raw = 100) then 99 else raw) ∈ Ingest.read_csv rows).
Proof.
  split; [|split].
  - induction rows as [|[t raw] rows IH]; [done|].
    unfold Ingest.read_csv in *. cbn [omap list_omap fmap list_fmap].
    unfold Ingest.read_csv_row at 1. case_decide; cbn [fst].
    + by apply sublist_cons.
    + by apply sublist_skip.
  - intros t v (raw & Hin & Hraw & ->)%read_csv_elem.
    split; [case_decide; lia|]. by exists raw.
  - intros t raw Hin Hraw. unfold Ingest.read_csv.
    apply list_elem_of_omap. exists (t, raw). split; [done|].
    unfold Ingest.read_csv_row. by rewrite decide_False by lia.
Qed.

(** ** The hypnogram *)

Module DreemMore.
Import Dreem.

Lemma hypnogram_step_app (sleep_stages : list string) (item : stage) :
  hypnogram_step sleep_stages item = sleep_stages ++ hypnogram_step [] item.
Proof.
  unfold hypnogram_step. destruct (levels !! level item); [done|].
  by rewrite app_nil_r.
Qed.

Lemma hypnogram_from (json_data : list stage) :
  ∀ sleep_stages,
    foldl hypnogram_step sleep_stages json_data
    = sleep_stages ++ generate_dreem_hypnogram json_data.
Proof.
  unfold generate_dreem_hypnogram.
  induction json_data as [|item json_data IH]; intros sleep_stages;
    cbn [foldl].
  - by rewrite app_nil_r.
  - rewrite IH, (IH (hypnogram_step [] item)), app_assoc.
    by rewrite <- hypnogram_step_app.
Qed.

Lemma hypnogram_cons (item : stage) (json_data : list stage) :
  generate_dreem_hypnogram (item :: json_data)
  = hypnogram_step [] item ++ generate_dreem_hypnogram json_data.
Proof.
  unfold generate_dreem_hypnogram at 1. cbn [foldl]. apply hypnogram_from.
Qed.

Lemma levels_label (key label : string) :
  levels !! key = Some label → label ∈ ["WAKE"; "REM"; "Light"; "Deep"]%string.
Proof.
  unfold levels. intros H.
  repeat (apply lookup_insert_Some in H as [[_ <-]|[_ H]];
          [by repeat constructor|]).
  apply lookup_singleton_Some in H as [_ <-]. by repeat constructor.
Qed.

Lemma hypnogram_seconds_app (a b : list string) :
  hypnogram_seconds (a ++ b) = hypnogram_seconds a + hypnogram_seconds b.
Proof. unfold hypnogram_seconds. rewrite length_app. lia. Qed.

Lemma known_items_cons (item : stage) (json_data : list stage) :
  known_items (item :: json_data)
  = (if decide (is_Some (levels !! level item)) then 1 else 0)
    + known_items json_data.
Proof.
  unfold known_items. rewrite filter_cons.
  case_decide; [cbn [length]|]; lia.
Qed.

End DreemMore.

Import Dreem DreemMore.

(** X17. The hypnogram of two lists of stages put end to end is the two
    hypnograms put end to end. *)
Theorem hypnogram_app (a b : list stage) :
  generate_dreem_hypnogram (a ++ b)
  = generate_dreem_hypnogram a ++ generate_dreem_hypnogram b.
Proof.
  unfold generate_dreem_hypnogram at 1. rewrite foldl_app.
  fold (generate_dreem_hypnogram a). apply hypnogram_from.
Qed.

(** X18. The hypnogram holds only the four labels of the dictionary.  Counted
    at 30 seconds an entry, it never stands for more than the seconds of the
    stages whose level is known, and it loses less than 30 seconds for each
    of them; stages of an unknown level and of a negative length add
    nothing. *)
Theorem hypnogram_duration (json_data : list stage) :
  (∀ label, label ∈ generate_dreem_hypnogram json_data →
            label ∈ ["WAKE"; "REM"; "Light"; "Deep"]%string) ∧
  known_seconds json_data - 29 * known_items json_data
    ≤ hypnogram_seconds (generate_dreem_hypnogram json_data)
    ≤ known_seconds json_data.
Proof.
  induction json_data as [|item json_data [IHl IHd]].
  { split; [by intros label Hl%elem_of_nil|]. by vm_compute. }
  rewrite hypnogram_cons, known_items_cons, hypnogram_seconds_app.
  cbn [known_seconds foldr]. fold (known_seconds json_data).
  unfold hypnogram_step. destruct (levels !! level item) as [label|] eqn:Hkey.
  - rewrite !decide_True by (by eexists). split.
    + intros l [Hl|Hl]%elem_of_app; [|by auto]. rewrite app_nil_l in Hl.
      apply elem_of_replicate_inv in Hl as ->. by eapply levels_label.
    + unfold hypnogram_seconds at 1 3. rewrite app_nil_l, length_replicate.
      pose proof (Z.div_mod (seconds item) 30 ltac:(lia)).
      pose proof (Z.mod_pos_bound (seconds item) 30 ltac:(lia)).
      clear IHl Hkey. destruct (decide (seconds item < 0)).
      * assert (seconds item `div` 30 < 0) by lia. lia.
      * assert (0 ≤ seconds item `div` 30) by lia. lia.
  - rewrite !decide_False by (intros [? ?]; congruence). split.
    + intros l [Hl|Hl]%elem_of_app; [by apply elem_of_nil in Hl|by auto].
    + change (hypnogram_seconds []) with 0. clear IHl Hkey. lia.
Qed.

(** X19. A higher verbosity count never gives a higher logging threshold, and
    the threshold is [WARNING] exactly for the counts below 1. *)
Theorem verbosity_levels :
  (∀ x y, x ≤ y → get_verbosity y ≤ get_verbosity x) ∧
  (∀ x, get_verbosity x = WARNING ↔ x ≤ 0).
Proof.
  unfold get_verbosity, DEBUG, INFO, WARNING.
  split; [intros x y Hxy|intros x; split]; repeat case_decide; lia.
Qed.
